(** * newspaper-pdf: ordering and layout core of [image_to_pdf_core.py]

    A shallow embedding of the pure parts of the image-to-PDF pipeline
    (priority parsing, grouping by marker, priority sort, page layout) and
    of the page-assembly loop, with the properties stated for them.

    Conventions.
    - A Python [str] is a [string]: one [ascii] per code point, so the
      strings covered are those whose code points are below 256.
    - A [pathlib.Path] is a record of its parent directory, as
      [str(path.parent)], and its final component [name]; two paths are
      equal when both fields are.
    - Python's arbitrary precision [int] is [Z] (or [nat] for list
      positions); Python's [float] is an exact rational [Q]: rounding is
      not modelled.
    - A raised exception is [None] in an [option], or the [Raised] outcome of
      the canvas monad. *)

From Stdlib Require Import List Bool Arith ZArith QArith Qround Lia String Ascii.
From Stdlib Require Import Permutation Sorted Lqa.
Import ListNotations.

Set Implicit Arguments.

Local Open Scope string_scope.
Local Open Scope nat_scope.
Local Open Scope list_scope.

(* ================================================================= *)
(** ** Strings *)

Module Str.

(** [p == s] on str. *)
Definition eqb (p s : string) : bool := String.eqb p s.

(** [s.startswith(p)]. *)
Fixpoint startswith (p s : string) : bool :=
  match p, s with
  | EmptyString, _ => true
  | String _ _, EmptyString => false
  | String a p', String b s' => Ascii.eqb a b && startswith p' s'
  end.

(** [p in s]: [p] occurs in [s] as a contiguous substring. *)
Fixpoint contains (p s : string) : bool :=
  startswith p s ||
  match s with
  | EmptyString => false
  | String _ s' => contains p s'
  end.

(** Truthiness of a str: [bool(s)]. *)
Definition nonempty (s : string) : bool :=
  match s with EmptyString => false | String _ _ => true end.

(** [c.isspace()] for a code point below 256: TAB, LF, VT, FF, CR,
    FS, GS, RS, US, SPACE, NEL and NBSP. *)
Definition isspace (c : ascii) : bool :=
  let n := nat_of_ascii c in
  ((9 <=? n) && (n <=? 13)) || ((28 <=? n) && (n <=? 32))
  || (n =? 133) || (n =? 160).

(** [s.lstrip()]. *)
Fixpoint lstrip (s : string) : string :=
  match s with
  | EmptyString => EmptyString
  | String c s' => if isspace c then lstrip s' else s
  end.

(** [s.rstrip()]. *)
Fixpoint rstrip (s : string) : string :=
  match s with
  | EmptyString => EmptyString
  | String c s' =>
      match rstrip s' with
      | EmptyString => if isspace c then EmptyString else String c EmptyString
      | r => String c r
      end
  end.

(** [s.strip()]. *)
Definition strip (s : string) : string := rstrip (lstrip s).

(** [s.split(sep)] for a one-character separator: the pieces between the
    separators; there is always at least one piece. *)
Fixpoint split (sep : ascii) (s : string) : list string :=
  match s with
  | EmptyString => [EmptyString]
  | String c s' =>
      if Ascii.eqb c sep then EmptyString :: split sep s'
      else match split sep s' with
           | [] => [String c EmptyString]
           | piece :: rest => String c piece :: rest
           end
  end.

(** [sep.join(pieces)]. *)
Fixpoint join (sep : ascii) (pieces : list string) : string :=
  match pieces with
  | [] => EmptyString
  | [piece] => piece
  | piece :: rest => (piece ++ String sep (join sep rest))%string
  end.

(** Every character of [s] is whitespace ([s] may be empty). *)
Fixpoint all_space (s : string) : bool :=
  match s with
  | EmptyString => true
  | String c s' => isspace c && all_space s'
  end.

(** [s.replace(a, b)] for single characters. *)
Fixpoint replace (a b : ascii) (s : string) : string :=
  match s with
  | EmptyString => EmptyString
  | String c s' => String (if Ascii.eqb c a then b else c) (replace a b s')
  end.

(** [c in s] for a character [c]. *)
Fixpoint mem (c : ascii) (s : string) : bool :=
  match s with
  | EmptyString => false
  | String d s' => Ascii.eqb d c || mem c s'
  end.

(** [c.lower()] for a code point below 256: the letters A-Z and the
    accented capitals U+00C0-U+00DE (the sign U+00D7 apart) move up by 32. *)
Definition lower_char (c : ascii) : ascii :=
  let n := nat_of_ascii c in
  if ((65 <=? n) && (n <=? 90))
     || ((192 <=? n) && (n <=? 222) && negb (n =? 215))
  then ascii_of_nat (n + 32) else c.

(** [s.lower()]. *)
Fixpoint lower (s : string) : string :=
  match s with
  | EmptyString => EmptyString
  | String c s' => String (lower_char c) (lower s')
  end.

(** [s.rsplit(sep, 1)] for a one-character separator: the string cut at
    its last separator, or the string alone when it holds none. *)
Definition rsplit1 (sep : ascii) (s : string) : list string :=
  let pieces := split sep s in
  match pieces with
  | [] | [_] => [s]
  | _ :: _ :: _ => [join sep (removelast pieces); last pieces EmptyString]
  end.

(** A string is headed when it is empty or starts with a character that
    is not whitespace, and tailed when it is empty or ends with one. *)
Definition headed (s : string) : bool :=
  match s with EmptyString => true | String c _ => negb (isspace c) end.

Fixpoint tailed (s : string) : bool :=
  match s with
  | EmptyString => true
  | String c EmptyString => negb (isspace c)
  | String _ s' => tailed s'
  end.

End Str.

(* ================================================================= *)
(** ** Paths *)

Record Path : Type := mkPath { parent : string; name : string }.

Definition Path_eqb (p q : Path) : bool :=
  String.eqb (parent p) (parent q) && String.eqb (name p) (name q).

(* ================================================================= *)
(** ** Grouper: [split_by_semicolon] *)

Definition semicolon : string := ";".

Definition has_semicolon (f : Path) : bool := Str.contains semicolon (name f).

Definition split_by_semicolon (image_files : list Path) : list Path * list Path :=
  let group1 := filter (fun f => has_semicolon f) image_files in
  let group2 := filter (fun f => negb (has_semicolon f)) image_files in
  (group1, group2).

(** [Subseq s l]: [s] is [l] with some elements removed, the others kept
    in the order they have in [l]. *)
Inductive Subseq {A : Type} : list A -> list A -> Prop :=
| Subseq_nil : Subseq [] []
| Subseq_skip x s l : Subseq s l -> Subseq s (x :: l)
| Subseq_keep x s l : Subseq s l -> Subseq (x :: s) (x :: l).

(* ================================================================= *)
(** ** Python's [sorted(xs, key=...)] and [list.index] *)

Section Sorted.
Variable A : Type.

(** Insertion into a list ordered by key.  Only [<] on keys is used, as
    Python's sort does; the new element goes before the first element
    whose key is not smaller. *)
Fixpoint insert_by (key : A -> nat) (x : A) (l : list A) : list A :=
  match l with
  | [] => [x]
  | y :: l' => if key y <? key x then y :: insert_by key x l'
               else x :: y :: l'
  end.

(** A stable sort by key: the elements are inserted from the last to the
    first, so that among equal keys an earlier element stays ahead. *)
Fixpoint stable_sort (key : A -> nat) (l : list A) : list A :=
  match l with
  | [] => []
  | x :: l' => insert_by key x (stable_sort key l')
  end.
End Sorted.

Section PySorted.
Variable A : Type.

(** The keys are computed once per element, in order, before any
    comparison; an exception raised by the key function aborts. *)
Fixpoint decorate (key : A -> option nat) (l : list A) : option (list (nat * A)) :=
  match l with
  | [] => Some []
  | x :: l' =>
      match key x with
      | None => None
      | Some k =>
          match decorate key l' with
          | None => None
          | Some d => Some ((k, x) :: d)
          end
      end
  end.

(** [sorted(l, key=key)]. *)
Definition py_sorted (key : A -> option nat) (l : list A) : option (list A) :=
  match decorate key l with
  | None => None
  | Some d => Some (map snd (stable_sort fst d))
  end.
End PySorted.

(** [files.index(x)]: position of the first element equal to [x];
    [None] stands for ValueError. *)
Fixpoint list_index (files : list Path) (x : Path) : option nat :=
  match files with
  | [] => None
  | y :: files' =>
      if Path_eqb y x then Some 0
      else match list_index files' x with
           | None => None
           | Some k => Some (S k)
           end
  end.

(* ================================================================= *)
(** ** PrioritySorter: [sort_by_priority] *)

(** The test of the loop body:
    [priority_item == filename or priority_item in filename]. *)
Definition matches (priority_item filename : string) : bool :=
  Str.eqb priority_item filename || Str.contains priority_item filename.

(** The [for idx, priority_item in enumerate(priority_list)] loop, started
    at index [idx]: the index of the first matching item, if any. *)
Fixpoint first_match_from (idx : nat) (priority_list : list string)
    (filename : string) : option nat :=
  match priority_list with
  | [] => None
  | priority_item :: rest =>
      if matches priority_item filename then Some idx
      else first_match_from (S idx) rest filename
  end.

Definition first_match (priority_list : list string) (filename : string) : option nat :=
  first_match_from 0 priority_list filename.

Definition get_priority_index (files : list Path) (priority_list : list string)
    (file_path : Path) : option nat :=
  let filename := name file_path in
  match first_match priority_list filename with
  | Some idx => Some idx
  | None =>
      match list_index files file_path with
      | None => None
      | Some k => Some (List.length priority_list + k)
      end
  end.

Definition sort_by_priority (files : list Path) (priority_list : list string)
    : option (list Path) :=
  py_sorted (get_priority_index files priority_list) files.

(* ================================================================= *)
(** ** PriorityListParser: [parse_priority_list] *)

Definition comma : ascii := ","%char.

(** [[item.strip() for item in priority_str.split(',') if item.strip()]]. *)
Fixpoint strip_nonempty (items : list string) : list string :=
  match items with
  | [] => []
  | item :: rest =>
      if Str.nonempty (Str.strip item)
      then Str.strip item :: strip_nonempty rest
      else strip_nonempty rest
  end.

Definition parse_priority_list (priority_str : string) : list string :=
  if negb (Str.nonempty priority_str) then []
  else strip_nonempty (Str.split comma priority_str).

(* ================================================================= *)
(** ** PageLayoutEngine: the arithmetic of [create_pdf_with_images] *)

(** [x < y] on the rationals. *)
Definition Qltb (x y : Q) : bool := negb (Qle_bool y x).

(** [min(a, b, c)]: the first of the smallest arguments; each later
    argument replaces the current one only when it is strictly smaller. *)
Definition py_min3 (a b c : Q) : Q :=
  let m := if Qltb b a then b else a in
  if Qltb c m then c else m.

(** [x / n] for an int [n]; [None] stands for ZeroDivisionError. *)
Definition py_div (x : Q) (n : Z) : option Q :=
  if (n =? 0)%Z then None else Some (x / inject_Z n)%Q.

(** [int(x)]: truncation toward zero. *)
Definition py_int (x : Q) : Z := Z.quot (Qnum x) (Z.pos (Qden x)).

Record Layout : Type := mkLayout {
  scale_ratio : Q;
  scaled_width : Q;
  scaled_height : Q;
  target_pixel_width : Z;
  target_pixel_height : Z;
  resize_needed : bool;
  img_x : Q;
  img_y : Q
}.

(** Lines 118-148 of the source, for an image of [img_width] by
    [img_height] pixels on a page of [page_width] by [page_height]
    points.  The numbers are exact rationals where the code has floats,
    whose rounding can move a computed value by one unit in the last place:
    only what holds of the rounded values as well is stated of the
    layout. *)
Definition layout (page_width page_height : Q) (img_width img_height : Z)
    : option Layout :=
  let available_width := (page_width - 100)%Q in
  let available_height := (page_height - 150)%Q in
  match py_div available_width img_width with
  | None => None
  | Some width_ratio =>
      match py_div available_height img_height with
      | None => None
      | Some height_ratio =>
          let scale_ratio := py_min3 width_ratio height_ratio 1 in
          let scaled_width := (inject_Z img_width * scale_ratio)%Q in
          let scaled_height := (inject_Z img_height * scale_ratio)%Q in
          let target_pixel_width := py_int (scaled_width * 2) in
          let target_pixel_height := py_int (scaled_height * 2) in
          Some {| scale_ratio := scale_ratio;
                  scaled_width := scaled_width;
                  scaled_height := scaled_height;
                  target_pixel_width := target_pixel_width;
                  target_pixel_height := target_pixel_height;
                  resize_needed :=
                    (target_pixel_width <? img_width)%Z
                    || (target_pixel_height <? img_height)%Z;
                  img_x := ((page_width - scaled_width) / 2)%Q;
                  img_y := (page_height - 100 - scaled_height)%Q |}
      end
  end.

(** The page sizes of the interface, in points. *)
Definition letter : Q * Q := (612, 792)%Q.

(* ================================================================= *)
(** ** DocumentComposer: [create_pdf_with_images] *)

(** *** Images, as far as the composer looks at them *)

Inductive Mode : Type := RGB | RGBA | LA | P | OtherMode (m : string).

Record Img : Type := mkImg { img_mode : Mode; img_width : Z; img_height : Z }.

(** Lines 108-116: every branch leaves an RGB image of the same size. *)
Definition to_rgb (img : Img) : Img :=
  match img_mode img with
  | RGBA | LA | P =>
      (* background = Image.new('RGB', img.size, ...); img = background *)
      {| img_mode := RGB; img_width := img_width img; img_height := img_height img |}
  | RGB => img
  | OtherMode _ =>
      (* img = img.convert('RGB') *)
      {| img_mode := RGB; img_width := img_width img; img_height := img_height img |}
  end.

(** *** The drawing surface

    [canvas.Canvas] accumulates the operators of the page being drawn in
    [code]; [showPage] closes that page and starts an empty one. *)

Inductive CanvasOp : Type :=
| SetFillColorRGB (r g b : Q)
| Rect (x y width height : Q)
| SetFont (face : string) (size : Q)
| DrawString (x y : Q) (text : string)
| DrawImage (img : Img) (x y width height : Q).

Definition Page : Type := list CanvasOp.

Inductive Exn : Type :=
| DecodeError          (* Image.open raised *)
| ZeroDivisionError    (* a zero image dimension in the ratios *)
| ResizeError          (* img.resize raised *)
| EncodeError          (* img.save, ImageReader or drawImage raised *)
| SaveError.           (* c.save() could not write the output file *)

Record State : Type := mkState {
  pages : list Page;          (* pages closed so far *)
  code : Page;                (* operators of the page being drawn *)
  stdout : list string;
  stderr : list (string * Exn)
}.

(** What the libraries do with the files at hand: the result of
    [Image.open] on a path, of [img.resize], whether the JPEG re-encoding
    and embedding of an image goes through, and whether the document can be
    written to a path.  [None] and [false] stand for a raised exception. *)
Record Env : Type := mkEnv {
  image_open : Path -> option Img;
  image_resize : Img -> Z -> Z -> option Img;
  jpeg_embed_ok : Img -> bool;
  output_writable : Path -> bool
}.

(** *** A state monad with exceptions

    The state is the canvas, which is mutated in place: what was drawn
    before an exception stays drawn. *)

Inductive Outcome (A : Type) : Type :=
| Returned (a : A)
| Raised (e : Exn).
Arguments Returned {A} a.
Arguments Raised {A} e.

Definition M (A : Type) : Type := State -> State * Outcome A.

Definition ret {A} (a : A) : M A := fun s => (s, Returned a).

Definition raise {A} (e : Exn) : M A := fun s => (s, Raised e).

Definition bind {A B} (m : M A) (k : A -> M B) : M B :=
  fun s =>
    match m s with
    | (s', Returned a) => k a s'
    | (s', Raised e) => (s', Raised e)
    end.

(** [try: body except Exception as e: handler(e)]. *)
Definition try_except {A} (body : M A) (handler : Exn -> M A) : M A :=
  fun s =>
    match body s with
    | (s', Returned a) => (s', Returned a)
    | (s', Raised e) => handler e s'
    end.

Declare Scope canvas_scope.
Delimit Scope canvas_scope with canvas.
Notation "x <- m ;; k" := (bind m (fun x => k))
  (at level 61, m at next level, right associativity) : canvas_scope.
Notation "m ;; k" := (bind m (fun _ => k))
  (at level 61, right associativity) : canvas_scope.

Definition draw (op : CanvasOp) : M unit :=
  fun s => ({| pages := pages s; code := code s ++ [op];
               stdout := stdout s; stderr := stderr s |}, Returned tt).

(** [c.showPage()]. *)
Definition showPage : M unit :=
  fun s => ({| pages := pages s ++ [code s]; code := [];
               stdout := stdout s; stderr := stderr s |}, Returned tt).

(** The first step of [c.save()]; reportlab documents it as: "Saves and
    close the PDF document in the file.  If there is current data a
    ShowPage is executed automatically." *)
Definition flush_page : M unit :=
  fun s => match code s with
           | [] => (s, Returned tt)
           | _ :: _ => showPage s
           end.

(** [c.save()]: the current data is closed as a page, then the file is
    written; [writable] tells whether the output file can be written, and
    the exception of a write that fails is raised. *)
Definition save (writable : bool) : M unit :=
  fun s =>
    match flush_page s with
    | (s', Returned _) =>
        if writable then (s', Returned tt) else (s', Raised SaveError)
    | (s', Raised e) => (s', Raised e)
    end.

Definition print (line : string) : M unit :=
  fun s => ({| pages := pages s; code := code s;
               stdout := stdout s ++ [line]; stderr := stderr s |}, Returned tt).

Definition print_error (filename : string) (e : Exn) : M unit :=
  fun s => ({| pages := pages s; code := code s;
               stdout := stdout s; stderr := stderr s ++ [(filename, e)] |},
            Returned tt).

(** Lifting of a call that may raise. *)
Definition call {A} (e : Exn) (r : option A) : M A :=
  match r with
  | Some a => ret a
  | None => raise e
  end.

(** [Path.stem]: the name without its last suffix; a leading or a final
    dot does not start a suffix. *)
Definition stem (p : Path) : string :=
  let pieces := Str.split "."%char (name p) in
  let root := Str.join "."%char (removelast pieces) in
  if (2 <=? List.length pieces) && Str.nonempty root
     && Str.nonempty (last pieces EmptyString)
  then root else name p.

(** [str(path)], with [parent p] standing for [str(path.parent)]: ["."]
    for a relative path of one component, ["/"] for a file under the root,
    and a directory without a final separator otherwise. *)
Definition path_str (p : Path) : string :=
  if String.eqb (parent p) "." then name p
  else if String.eqb (parent p) "/" then ("/" ++ name p)%string
  else (parent p ++ "/" ++ name p)%string.

Definition newline : string := String (ascii_of_nat 10) EmptyString.

Section Composer.
Variable env : Env.
Variable output_path : Path.
Variables page_width page_height : Q.

Local Open Scope canvas_scope.

(** The body of the [try] block, lines 85-159. *)
Definition render_page (img_path : Path) : M unit :=
  draw (SetFillColorRGB 0 0 0) ;;
  draw (Rect 40 (page_height - 65) (page_width - 80) 35) ;;
  draw (SetFillColorRGB 1 1 0) ;;
  draw (SetFont "Helvetica-Bold" 16) ;;
  draw (DrawString 50 (page_height - 50)
          (Str.replace "_"%char " "%char (stem img_path))) ;;
  draw (SetFillColorRGB 0 0 0) ;;
  img <- call DecodeError (image_open env img_path) ;;
  let img := to_rgb img in
  l <- call ZeroDivisionError
         (layout page_width page_height (img_width img) (img_height img)) ;;
  img <- (if resize_needed l
          then call ResizeError
                 (image_resize env img (target_pixel_width l)
                    (target_pixel_height l))
          else ret img) ;;
  (if jpeg_embed_ok env img then ret tt else raise EncodeError) ;;
  draw (DrawImage img (img_x l) (img_y l) (scaled_width l) (scaled_height l)) ;;
  showPage ;;
  print ("Added: " ++ name img_path)%string.

(** One turn of the [for] loop, lines 83-163. *)
Definition process_image (img_path : Path) : M unit :=
  try_except (render_page img_path)
    (fun e => print_error (name img_path) e).

(** The [for] loop. *)
Fixpoint process_images (image_files : list Path) : M unit :=
  match image_files with
  | [] => ret tt
  | img_path :: rest => process_image img_path ;; process_images rest
  end.

Definition new_canvas : State :=
  {| pages := []; code := []; stdout := []; stderr := [] |}.

(** What a call leaves behind: the saved document when [c.save()] was
    reached, the two output streams, and the exception that reached the
    caller, if any. *)
Record Result : Type := mkResult {
  document : option (list Page);
  printed : list string;
  errors : list (string * Exn);
  raised : option Exn
}.

Definition create_pdf_with_images (image_files : list Path) : Result :=
  match image_files with
  | [] =>
      {| document := None;
         printed := ["Warning: No images to process"];
         errors := [];
         raised := None |}
  | _ :: _ =>
      match (process_images image_files ;;
             save (output_writable env output_path)) new_canvas with
      | (s, Returned _) =>
          {| document := Some (pages s);
             printed :=
               stdout s
               ++ [(newline ++ "PDF created successfully: "
                    ++ path_str output_path)%string];
             errors := stderr s;
             raised := None |}
      | (s, Raised e) =>
          {| document := None;
             printed := stdout s;
             errors := stderr s;
             raised := Some e |}
      end
  end.
End Composer.

(* ================================================================= *)
(** ** The request handler of [app.py]: admission and final order *)

Definition ALLOWED_EXTENSIONS : list string := ["png"; "jpg"; "jpeg"].

(** [allowed_file], lines 31-33 of [app.py].  [None] stands for the
    IndexError of [...[1]]. *)
Definition allowed_file (filename : string) : option bool :=
  if Str.contains "." filename
  then match nth_error (Str.rsplit1 "."%char filename) 1 with
       | None => None
       | Some ext =>
           Some (existsb (String.eqb (Str.lower ext)) ALLOWED_EXTENSIONS)
       end
  else Some false.

(** Lines 77-90 of [generate_pdf]: the priority list is parsed, the paths
    are split into the two groups, each group is sorted and the sorted
    groups are concatenated, the marked group first. *)
Definition final_order (image_paths : list Path) (priority_str : string)
    : option (list Path) :=
  let priority_list := parse_priority_list priority_str in
  let (group1, group2) := split_by_semicolon image_paths in
  match sort_by_priority group1 priority_list with
  | None => None
  | Some sorted_group1 =>
      match sort_by_priority group2 priority_list with
      | None => None
      | Some sorted_group2 => Some (sorted_group1 ++ sorted_group2)
      end
  end.

(** The parser as the specification words it: the comma-separated entries,
    each trimmed, the empty ones dropped. *)
Definition trimmed_nonempty_entries (priority_str : string) : list string :=
  filter Str.nonempty (map Str.strip (Str.split comma priority_str)).

(** *** Notions used to state the parser's contract, in terms of the
    characters of the strings only *)

(** Every character of [s] is whitespace. *)
Definition whitespace (s : string) : Prop :=
  forall c, In c (list_ascii_of_string s) -> Str.isspace c = true.

(** [t] is [piece] without the whitespace around it, and is not empty:
    [piece] is a run of whitespace, then [t], then a run of whitespace, and
    [t] starts and ends with characters that are not whitespace. *)
Definition Trimmed (piece t : string) : Prop :=
  exists l r,
    piece = (l ++ t ++ r)%string
    /\ whitespace l /\ whitespace r
    /\ (exists a m, t = String a m /\ Str.isspace a = false)
    /\ (exists m z, t = (m ++ String z EmptyString)%string
                    /\ Str.isspace z = false).

(** [tokens] are the entries [pieces] in order, each trimmed, those made
    of whitespace only (the empty one among them) left out. *)
Inductive Tokens : list string -> list string -> Prop :=
| Tokens_nil : Tokens [] []
| Tokens_drop piece rest tokens :
    whitespace piece -> Tokens rest tokens -> Tokens (piece :: rest) tokens
| Tokens_keep piece t rest tokens :
    Trimmed piece t -> Tokens rest tokens ->
    Tokens (piece :: rest) (t :: tokens).

(** *** Notions used to state the ordering properties *)

(** [Before a b l]: some occurrence of [a] in [l] is followed, later in
    [l], by an occurrence of [b]. *)
Inductive Before {A : Type} (a b : A) : list A -> Prop :=
| Before_here l : In b l -> Before a b (a :: l)
| Before_later x l : Before a b l -> Before a b (x :: l).

(** The order of a list sorted by [key]. *)
Definition le_by {A : Type} (key : A -> nat) (a b : A) : Prop := key a <= key b.

(** [out] is a stable sort of [l] by [key]: the same elements, in
    non-decreasing key order, those of equal key in their input order.
    This is what Python guarantees of [sorted]; [stable_sort] is the one
    list that meets it (lemmas [stable_sort_StableSortOf] and
    [StableSortOf_unique]). *)
Definition StableSortOf {A : Type} (key : A -> nat) (l out : list A) : Prop :=
  Permutation out l
  /\ StronglySorted (le_by key) out
  /\ (forall k, filter (fun x => key x =? k) out = filter (fun x => key x =? k) l).

(** The sort key of a file as a number; [get_priority_index] gives it for
    every member of [files] (lemma [get_priority_index_rank]). *)
Definition rank (files : list Path) (priority_list : list string)
    (file_path : Path) : nat :=
  match get_priority_index files priority_list file_path with
  | Some k => k
  | None => 0
  end.

(** A file whose name no priority item matches. *)
Definition unmatched (priority_list : list string) (f : Path) : bool :=
  match first_match priority_list (name f) with
  | None => true
  | Some _ => false
  end.

(** A file whose first matching priority item is the one at index [i]. *)
Definition matched_at (priority_list : list string) (i : nat) (f : Path) : bool :=
  match first_match priority_list (name f) with
  | None => false
  | Some j => j =? i
  end.

(** [list(enumerate(l, start))]. *)
Fixpoint enumerate_from {A : Type} (start : nat) (l : list A) : list (nat * A) :=
  match l with
  | [] => []
  | x :: l' => (start, x) :: enumerate_from (S start) l'
  end.

Definition enumerate {A : Type} (l : list A) : list (nat * A) :=
  enumerate_from 0 l.

(** The list elements of [files] are references: two entries with equal
    paths are still two entries.  To follow each entry through the sort,
    [sort_by_priority_entries] runs the same [sorted] call on the entries
    labelled with their input positions, the key looking at the path only.
    Forgetting the labels gives [sort_by_priority] back (lemma
    [sort_by_priority_entries_paths]). *)
Definition sort_by_priority_entries (files : list Path)
    (priority_list : list string) : option (list (nat * Path)) :=
  py_sorted (fun e => get_priority_index files priority_list (snd e))
    (enumerate files).

(** *** Notions used to state the page-assembly properties *)

Section ComposerNotions.
Variable env : Env.
Variables page_width page_height : Q.

(** The operators of the heading bar, lines 86-103. *)
Definition heading (img_path : Path) : list CanvasOp :=
  [SetFillColorRGB 0 0 0;
   Rect 40 (page_height - 65) (page_width - 80) 35;
   SetFillColorRGB 1 1 0;
   SetFont "Helvetica-Bold" 16;
   DrawString 50 (page_height - 50)
     (Str.replace "_"%char " "%char (stem img_path));
   SetFillColorRGB 0 0 0].

(** The steps of the [try] block that can raise, lines 106-154, without
    the canvas: the image that is embedded and its layout, or the
    exception. *)
Definition prepare (img_path : Path) : Outcome (Img * Layout) :=
  match image_open env img_path with
  | None => Raised DecodeError
  | Some img =>
      let img := to_rgb img in
      match layout page_width page_height (img_width img) (img_height img) with
      | None => Raised ZeroDivisionError
      | Some l =>
          match (if resize_needed l
                 then image_resize env img (target_pixel_width l)
                        (target_pixel_height l)
                 else Some img) with
          | None => Raised ResizeError
          | Some img' =>
              if jpeg_embed_ok env img' then Returned (img', l)
              else Raised EncodeError
          end
      end
  end.

(** The asset is decoded and rendered without an exception. *)
Definition renders (img_path : Path) : bool :=
  match prepare img_path with
  | Returned _ => true
  | Raised _ => false
  end.

(** Number of assets of a batch that render. *)
Definition count_rendered (image_files : list Path) : nat :=
  List.length (filter renders image_files).

(** Whether the last asset of a batch renders ([true] for no asset). *)
Definition last_renders (image_files : list Path) : bool :=
  fold_left (fun _ img_path => renders img_path) image_files true.
End ComposerNotions.

(** The page of an asset that renders on a fresh page: its heading, then
    its image. *)
Definition clean_page (env : Env) (page_width page_height : Q)
    (img_path : Path) : Page :=
  match prepare env page_width page_height img_path with
  | Returned (img, l) =>
      heading page_width page_height img_path
      ++ [DrawImage img (img_x l) (img_y l) (scaled_width l) (scaled_height l)]
  | Raised _ => heading page_width page_height img_path
  end.

(** The line printed for an asset that renders. *)
Definition added_line (img_path : Path) : string :=
  ("Added: " ++ name img_path)%string.

Definition code_empty (s : State) : bool :=
  match code s with
  | [] => true
  | _ :: _ => false
  end.

(** The imaging library of the examples: [bad.png] cannot be decoded,
    every other file is a 100 by 50 RGB image; resizing and embedding
    succeed. *)
Definition example_env : Env :=
  {| image_open := fun p =>
       if String.eqb (name p) "bad.png" then None
       else Some {| img_mode := RGB; img_width := 100; img_height := 50 |};
     image_resize := fun img w h =>
       Some {| img_mode := img_mode img; img_width := w; img_height := h |};
     jpeg_embed_ok := fun _ => true;
     output_writable := fun _ => true |}.

(* ================================================================= *)
(** * Properties *)

(** ** Paths *)

Lemma Path_eqb_spec (p q : Path) : reflect (p = q) (Path_eqb p q).
Proof.
  destruct p as [d n], q as [d' n']; unfold Path_eqb; simpl.
  destruct (String.eqb_spec d d'), (String.eqb_spec n n'); simpl;
    constructor; congruence.
Qed.

Lemma Path_eqb_refl (p : Path) : Path_eqb p p = true.
Proof. destruct (Path_eqb_spec p p); congruence. Qed.

(** ** Strings *)

Module StrFacts.
Import Str.

Lemma startswith_spec (p s : string) :
  startswith p s = true <-> exists t, s = (p ++ t)%string.
Proof.
  revert s; induction p as [|a p IH]; intros s; simpl.
  - split; [intros _; now exists s | reflexivity].
  - destruct s as [|b s].
    + split; [discriminate | intros [t H]; discriminate].
    + rewrite andb_true_iff, IH. split.
      * intros [Hab [t ->]]. apply Ascii.eqb_eq in Hab. subst. now exists t.
      * intros [t H]. injection H as -> ->. split; [apply Ascii.eqb_refl | now exists t].
Qed.

(** [contains] is the substring test. *)
Lemma contains_spec (p s : string) :
  contains p s = true <-> exists u t, s = (u ++ p ++ t)%string.
Proof.
  induction s as [|c s IH]; simpl.
  - rewrite orb_false_r, startswith_spec. split.
    + intros [t H]. now exists EmptyString, t.
    + intros [[|d u] [t H]]; [now exists t | discriminate].
  - rewrite orb_true_iff, startswith_spec, IH. split.
    + intros [[t H] | [u [t H]]].
      * now exists EmptyString, t.
      * exists (String c u), t. simpl. now f_equal.
    + intros [[|d u] [t H]].
      * left. now exists t.
      * right. injection H as -> ->. now exists u, t.
Qed.

Lemma contains_self (s : string) : contains s s = true.
Proof.
  apply contains_spec. exists EmptyString, EmptyString. simpl.
  induction s as [|c s IH]; simpl; [reflexivity | now f_equal].
Qed.

Lemma nonempty_false (s : string) : nonempty s = false <-> s = EmptyString.
Proof. destruct s; simpl; split; congruence. Qed.

(** *** [strip] *)

Lemma lstrip_all_space (s : string) : all_space s = true -> lstrip s = EmptyString.
Proof.
  induction s as [|c s IH]; simpl; [reflexivity|].
  intros H. apply andb_true_iff in H as [Hc Hs]. rewrite Hc. auto.
Qed.

Lemma rstrip_all_space (s : string) : all_space s = true -> rstrip s = EmptyString.
Proof.
  induction s as [|c s IH]; simpl; [reflexivity|].
  intros H. apply andb_true_iff in H as [Hc Hs]. rewrite (IH Hs), Hc. reflexivity.
Qed.

Lemma lstrip_decomp (s : string) :
  exists l, s = (l ++ lstrip s)%string /\ all_space l = true.
Proof.
  induction s as [|c s [l [Hl Hs]]]; simpl.
  - now exists EmptyString.
  - destruct (isspace c) eqn:Hc.
    + exists (String c l). simpl. rewrite Hc, Hs. split; [now f_equal | reflexivity].
    + now exists EmptyString.
Qed.

Lemma rstrip_decomp (s : string) :
  exists r, s = (rstrip s ++ r)%string /\ all_space r = true.
Proof.
  induction s as [|c s [r [Hr Hs]]]; simpl.
  - now exists EmptyString.
  - destruct (rstrip s) as [|d t] eqn:E.
    + destruct (isspace c) eqn:Hc.
      * exists (String c r). simpl in *. rewrite Hc, Hs. split; [now f_equal | reflexivity].
      * exists r. simpl in *. split; [now f_equal | assumption].
    + exists r. simpl in *. split; [now f_equal | assumption].
Qed.

Lemma lstrip_headed (s : string) : headed (lstrip s) = true.
Proof.
  induction s as [|c s IH]; simpl; [reflexivity|].
  destruct (isspace c) eqn:Hc; [assumption | simpl; now rewrite Hc].
Qed.

Lemma rstrip_tailed (s : string) : tailed (rstrip s) = true.
Proof.
  induction s as [|c s IH]; simpl; [reflexivity|].
  destruct (rstrip s) as [|d t] eqn:E.
  - destruct (isspace c) eqn:Hc; simpl; [reflexivity | now rewrite Hc].
  - exact IH.
Qed.

Lemma rstrip_headed (s : string) : headed s = true -> headed (rstrip s) = true.
Proof.
  destruct s as [|c s]; simpl; [reflexivity|].
  intros Hc. destruct (rstrip s); [|exact Hc].
  apply negb_true_iff in Hc. rewrite Hc. simpl. now rewrite Hc.
Qed.

Lemma headed_lstrip (s : string) : headed s = true -> lstrip s = s.
Proof.
  destruct s as [|c s]; simpl; [reflexivity|].
  intros Hc. apply negb_true_iff in Hc. now rewrite Hc.
Qed.

Lemma tailed_rstrip (s : string) : tailed s = true -> rstrip s = s.
Proof.
  induction s as [|c s IH]; [reflexivity|].
  intros H. destruct s as [|d t].
  - simpl in *. apply negb_true_iff in H. now rewrite H.
  - change (tailed (String d t) = true) in H. specialize (IH H).
    change (match rstrip (String d t) with
            | EmptyString => if isspace c then EmptyString else String c EmptyString
            | r => String c r
            end = String c (String d t)).
    rewrite IH. reflexivity.
Qed.

Lemma strip_headed (s : string) : headed (strip s) = true.
Proof. apply rstrip_headed, lstrip_headed. Qed.

Lemma strip_tailed (s : string) : tailed (strip s) = true.
Proof. apply rstrip_tailed. Qed.

Lemma strip_idem (s : string) : strip (strip s) = strip s.
Proof.
  unfold strip at 1. rewrite (headed_lstrip _ (strip_headed s)).
  apply tailed_rstrip, strip_tailed.
Qed.

(** [strip] removes a run of whitespace at each end and nothing else. *)
Lemma strip_decomp (s : string) :
  exists l r, s = (l ++ strip s ++ r)%string
              /\ all_space l = true /\ all_space r = true.
Proof.
  destruct (lstrip_decomp s) as [l [Hl Hsl]].
  destruct (rstrip_decomp (lstrip s)) as [r [Hr Hsr]].
  exists l, r. unfold strip. rewrite <- Hr. auto.
Qed.

Lemma strip_all_space (s : string) : all_space s = true -> strip s = EmptyString.
Proof. intros H. unfold strip. now rewrite (lstrip_all_space _ H). Qed.

(** *** [split] and [join] *)

Lemma split_not_nil (sep : ascii) (s : string) : split sep s <> [].
Proof.
  induction s as [|c s IH]; simpl; [discriminate|].
  destruct (Ascii.eqb c sep); [discriminate|].
  destruct (split sep s); [contradiction | discriminate].
Qed.

Lemma join_split (sep : ascii) (s : string) : join sep (split sep s) = s.
Proof.
  induction s as [|c s IH]; [reflexivity|].
  simpl split. destruct (Ascii.eqb c sep) eqn:E.
  - apply Ascii.eqb_eq in E. subst c.
    pose proof (split_not_nil sep s) as Hn.
    destruct (split sep s) as [|piece rest]; [contradiction|].
    change (join sep (EmptyString :: piece :: rest))
      with (String sep (join sep (piece :: rest))).
    now rewrite IH.
  - pose proof (split_not_nil sep s) as Hn.
    destruct (split sep s) as [|piece rest]; [contradiction|].
    destruct rest as [|piece' rest'].
    + simpl in *. now f_equal.
    + change (join sep (String c piece :: piece' :: rest'))
        with (String c (piece ++ String sep (join sep (piece' :: rest')))).
      f_equal. exact IH.
Qed.

(** The separator occurs in no piece. *)
Lemma split_no_sep (sep : ascii) (s : string) :
  Forall (fun piece => mem sep piece = false) (split sep s).
Proof.
  induction s as [|c s IH]; simpl.
  - constructor; [reflexivity | constructor].
  - destruct (Ascii.eqb c sep) eqn:E.
    + constructor; [reflexivity | exact IH].
    + destruct (split sep s) as [|piece rest]; constructor.
      * simpl. now rewrite E.
      * constructor.
      * simpl. rewrite E. now inversion IH.
      * now inversion IH.
Qed.

Lemma split_all_space (sep : ascii) (s : string) :
  all_space s = true -> Forall (fun piece => all_space piece = true) (split sep s).
Proof.
  induction s as [|c s IH]; simpl.
  - intros _. constructor; [reflexivity | constructor].
  - intros H. apply andb_true_iff in H as [Hc Hs]. specialize (IH Hs).
    destruct (Ascii.eqb c sep).
    + constructor; [reflexivity | exact IH].
    + destruct (split sep s) as [|piece rest]; constructor.
      * simpl. now rewrite Hc.
      * constructor.
      * simpl. rewrite Hc. now inversion IH.
      * now inversion IH.
Qed.

End StrFacts.


(* ================================================================= *)
(** ** PriorityListParser *)

Lemma strip_nonempty_filter (items : list string) :
  strip_nonempty items = filter Str.nonempty (map Str.strip items).
Proof.
  induction items as [|item rest IH]; simpl; [reflexivity|].
  destruct (Str.nonempty (Str.strip item)); now rewrite IH.
Qed.

Lemma strip_nonempty_trimmed (items : list string) :
  Forall (fun t => t <> EmptyString /\ Str.strip t = t
                   /\ Str.headed t = true /\ Str.tailed t = true)
         (strip_nonempty items).
Proof.
  induction items as [|item rest IH]; simpl; [constructor|].
  destruct (Str.nonempty (Str.strip item)) eqn:E; [|exact IH].
  constructor; [|exact IH].
  repeat split.
  - intros H. rewrite H in E. discriminate.
  - apply StrFacts.strip_idem.
  - apply StrFacts.strip_headed.
  - apply StrFacts.strip_tailed.
Qed.

Lemma strip_nonempty_all_space (items : list string) :
  Forall (fun piece => Str.all_space piece = true) items ->
  strip_nonempty items = [].
Proof.
  induction 1 as [|item rest Hitem _ IH]; simpl; [reflexivity|].
  now rewrite (StrFacts.strip_all_space _ Hitem).
Qed.

Lemma isspace_code_points (c : ascii) :
  Str.isspace c = true <->
  In (nat_of_ascii c) [9; 10; 11; 12; 13; 28; 29; 30; 31; 32; 133; 160].
Proof.
  unfold Str.isspace. cbv zeta. generalize (nat_of_ascii c). intros n.
  simpl In.
  rewrite !orb_true_iff, !andb_true_iff, !Nat.leb_le, !Nat.eqb_eq. lia.
Qed.

Lemma all_space_whitespace (s : string) :
  Str.all_space s = true -> whitespace s.
Proof.
  induction s as [|c s IH]; simpl; intros H d Hd; [contradiction|].
  apply andb_true_iff in H as [Hc Hs].
  destruct Hd as [<- | Hd]; [exact Hc | now apply IH].
Qed.

Lemma all_space_app (a b : string) :
  Str.all_space (a ++ b)%string = Str.all_space a && Str.all_space b.
Proof.
  induction a as [|c a IH]; simpl; [reflexivity|].
  now rewrite IH, andb_assoc.
Qed.

Lemma headed_first (t : string) :
  t <> EmptyString -> Str.headed t = true ->
  exists a m, t = String a m /\ Str.isspace a = false.
Proof.
  destruct t as [|a m]; [contradiction|]. simpl. intros _ H.
  exists a, m. split; [reflexivity | now apply negb_true_iff].
Qed.

Lemma tailed_last (t : string) :
  t <> EmptyString -> Str.tailed t = true ->
  exists m z, t = (m ++ String z EmptyString)%string /\ Str.isspace z = false.
Proof.
  induction t as [|c t IH]; [contradiction|]. intros _ H.
  destruct t as [|d t'].
  - exists EmptyString, c. split; [reflexivity|]. simpl in H.
    now apply negb_true_iff.
  - change (Str.tailed (String d t') = true) in H.
    destruct (IH ltac:(discriminate) H) as [m [z [Hm Hz]]].
    exists (String c m), z. split; [|exact Hz]. simpl. now rewrite <- Hm.
Qed.

Lemma mem_false_not_In (c : ascii) (s : string) :
  Str.mem c s = false -> ~ In c (list_ascii_of_string s).
Proof.
  induction s as [|d s IH]; simpl; [tauto|].
  intros H. apply orb_false_iff in H as [Hd Hs].
  apply Ascii.eqb_neq in Hd. intros [E | E]; [congruence | now apply IH].
Qed.

Lemma join_concat (pieces : list string) :
  Str.join comma pieces = String.concat "," pieces.
Proof.
  induction pieces as [|p rest IH]; [reflexivity|].
  destruct rest as [|q rest']; [reflexivity|].
  change (Str.join comma (p :: q :: rest'))
    with (p ++ String comma (Str.join comma (q :: rest')))%string.
  rewrite IH. reflexivity.
Qed.

(** The comprehension keeps, in order, the trimmed form of every entry that
    is not made of whitespace only. *)
Lemma strip_nonempty_Tokens (items : list string) :
  Tokens items (strip_nonempty items).
Proof.
  induction items as [|item rest IH]; simpl; [constructor|].
  destruct (StrFacts.strip_decomp item) as [l [r [Hitem [Hl Hr]]]].
  destruct (Str.nonempty (Str.strip item)) eqn:E.
  - apply Tokens_keep; [|exact IH].
    assert (Hne : Str.strip item <> EmptyString)
      by (intros H; rewrite H in E; discriminate).
    exists l, r. split; [exact Hitem|].
    split; [now apply all_space_whitespace|].
    split; [now apply all_space_whitespace|].
    split.
    + apply headed_first; [exact Hne | apply StrFacts.strip_headed].
    + apply tailed_last; [exact Hne | apply StrFacts.strip_tailed].
  - apply Tokens_drop; [|exact IH].
    apply StrFacts.nonempty_false in E. rewrite E in Hitem. simpl in Hitem.
    apply all_space_whitespace. rewrite Hitem, all_space_app, Hl, Hr.
    reflexivity.
Qed.

(** C9 (parser contract).  For every input string, [parse_priority_list]
    returns the entries between the commas (the pieces joined by commas give
    the input back, and no piece holds a comma), each trimmed of the
    whitespace around it (an entry is a run of whitespace, its token, a run
    of whitespace, and the token starts and ends with a character that is
    not whitespace), the entries made of whitespace only dropped, in their
    order and with duplicates kept; whitespace is the characters of code
    points 9-13, 28-32, 133 and 160; an empty or whitespace-only input
    gives the empty list. *)
Theorem parse_priority_list_contract (priority_str : string) :
  String.concat "," (Str.split comma priority_str) = priority_str
  /\ Forall (fun piece => ~ In ","%char (list_ascii_of_string piece))
            (Str.split comma priority_str)
  /\ Tokens (Str.split comma priority_str) (parse_priority_list priority_str)
  /\ (forall c, Str.isspace c = true <->
                In (nat_of_ascii c)
                  [9; 10; 11; 12; 13; 28; 29; 30; 31; 32; 133; 160])
  /\ (whitespace priority_str -> parse_priority_list priority_str = [])
  /\ parse_priority_list priority_str = trimmed_nonempty_entries priority_str
  /\ Str.join comma (Str.split comma priority_str) = priority_str
  /\ Forall (fun piece => Str.mem comma piece = false)
            (Str.split comma priority_str)
  /\ Forall (fun t => t <> EmptyString /\ Str.strip t = t
                      /\ Str.headed t = true /\ Str.tailed t = true)
            (parse_priority_list priority_str)
  /\ (Str.all_space priority_str = true -> parse_priority_list priority_str = []).
Proof.
  assert (Heq : parse_priority_list priority_str
                = strip_nonempty (Str.split comma priority_str))
    by (unfold parse_priority_list; now destruct priority_str).
  assert (Hall : Str.all_space priority_str = true ->
                 parse_priority_list priority_str = []).
  { intros H. rewrite Heq.
    apply strip_nonempty_all_space, StrFacts.split_all_space, H. }
  split; [|split; [|split; [|split; [|split; [|split; [|split; [|split; [|split]]]]]]]].
  - rewrite <- join_concat. apply StrFacts.join_split.
  - eapply Forall_impl; [|apply (StrFacts.split_no_sep comma)].
    intros piece. apply mem_false_not_In.
  - rewrite Heq. apply strip_nonempty_Tokens.
  - apply isspace_code_points.
  - intros H. apply Hall. clear -H.
    induction priority_str as [|c s IH]; [reflexivity|]. simpl.
    rewrite (H c (or_introl eq_refl)), IH; [reflexivity|].
    intros d Hd. apply H. now right.
  - rewrite Heq. unfold trimmed_nonempty_entries. apply strip_nonempty_filter.
  - apply StrFacts.join_split.
  - apply StrFacts.split_no_sep.
  - rewrite Heq. apply strip_nonempty_trimmed.
  - exact Hall.
Qed.

(* ================================================================= *)
(** ** Grouper *)

Lemma filter_Subseq {A : Type} (f : A -> bool) (l : list A) :
  Subseq (filter f l) l.
Proof.
  induction l as [|x l IH]; simpl; [constructor|].
  destruct (f x); now constructor.
Qed.

Lemma filter_partition_Permutation {A : Type} (f : A -> bool) (l : list A) :
  Permutation (filter f l ++ filter (fun x => negb (f x)) l) l.
Proof.
  induction l as [|x l IH]; simpl; [constructor|].
  destruct (f x); simpl.
  - now constructor.
  - symmetry. apply Permutation_cons_app. now symmetry.
Qed.

(** The marker test is the presence of the character [;] in the name. *)
Lemma has_semicolon_spec (f : Path) :
  has_semicolon f = true <->
  exists u t, name f = (u ++ ";" ++ t)%string.
Proof. unfold has_semicolon, semicolon. apply StrFacts.contains_spec. Qed.

(** C3 (partition correctness).  For every input sequence, a path is in the
    first list exactly when it is in the input and its name contains the
    character [;] (the name is some [u], then [;], then some [t]), and in
    the second exactly when it is in the input and its name contains none;
    no path is in both; the two lists together are a permutation of the
    input (nothing duplicated or dropped); each list keeps the relative
    input order of its members. *)
Theorem split_by_semicolon_partition (image_files : list Path) :
  let (group1, group2) := split_by_semicolon image_files in
  (forall f, In f group1 <->
             In f image_files /\ exists u t, name f = (u ++ ";" ++ t)%string)
  /\ (forall f, In f group2 <->
                In f image_files
                /\ ~ (exists u t, name f = (u ++ ";" ++ t)%string))
  /\ (forall f, In f group1 <-> In f image_files /\ has_semicolon f = true)
  /\ (forall f, In f group2 <-> In f image_files /\ has_semicolon f = false)
  /\ (forall f, ~ (In f group1 /\ In f group2))
  /\ Permutation (group1 ++ group2) image_files
  /\ List.length group1 + List.length group2 = List.length image_files
  /\ Subseq group1 image_files
  /\ Subseq group2 image_files.
Proof.
  unfold split_by_semicolon.
  pose proof (filter_partition_Permutation (fun f => has_semicolon f) image_files) as HP.
  split; [|split; [|split; [|split; [|split; [|split; [|split; [|split]]]]]]].
  - intros f. rewrite filter_In, has_semicolon_spec. reflexivity.
  - intros f. rewrite filter_In, negb_true_iff, <- has_semicolon_spec.
    destruct (has_semicolon f); split; intros [H1 H2]; split;
      congruence || (intros H; discriminate) || assumption.
  - intros f. rewrite filter_In. reflexivity.
  - intros f. rewrite filter_In, negb_true_iff. reflexivity.
  - intros f [H1 H2]. apply filter_In in H1 as [_ H1]. apply filter_In in H2 as [_ H2].
    rewrite H1 in H2. discriminate.
  - exact HP.
  - apply Permutation_length in HP. now rewrite length_app in HP.
  - apply filter_Subseq.
  - apply filter_Subseq.
Qed.

(* ================================================================= *)
(** ** The stable sort *)

Section BeforeFacts.
Variable A : Type.

Lemma Before_In_l (a b : A) (l : list A) : Before a b l -> In a l.
Proof. induction 1; simpl; auto. Qed.

Lemma Before_In_r (a b : A) (l : list A) : Before a b l -> In b l.
Proof. induction 1; simpl; auto. Qed.

(** [Before] in terms of positions. *)
Lemma Before_nth (a b : A) (l : list A) :
  Before a b l <->
  exists p q, p < q /\ nth_error l p = Some a /\ nth_error l q = Some b.
Proof.
  split.
  - induction 1 as [l Hb | x l _ [p [q [Hpq [Hp Hq]]]]].
    + apply In_nth_error in Hb as [n Hn].
      exists 0, (S n). repeat split; [lia | assumption].
    + exists (S p), (S q). repeat split; [lia | assumption | assumption].
  - intros [p [q [Hpq [Hp Hq]]]].
    revert p q Hpq Hp Hq. induction l as [|x l IH]; intros p q Hpq Hp Hq.
    + destruct p; discriminate.
    + destruct q as [|q]; [lia|]. destruct p as [|p]; simpl in *.
      * injection Hp as ->. apply Before_here. eapply nth_error_In; eauto.
      * apply Before_later. apply (IH p q); [lia | assumption | assumption].
Qed.
End BeforeFacts.

Section SortFacts.
Variable A : Type.
Variable key : A -> nat.

Lemma insert_by_Permutation (x : A) (l : list A) :
  Permutation (insert_by key x l) (x :: l).
Proof.
  induction l as [|y l IH]; simpl; [reflexivity|].
  destruct (key y <? key x); [|reflexivity].
  rewrite IH. apply perm_swap.
Qed.

Lemma stable_sort_Permutation (l : list A) : Permutation (stable_sort key l) l.
Proof.
  induction l as [|x l IH]; simpl; [constructor|].
  rewrite insert_by_Permutation. now constructor.
Qed.

Lemma stable_sort_In (x : A) (l : list A) : In x (stable_sort key l) <-> In x l.
Proof.
  split; apply Permutation_in;
    [apply stable_sort_Permutation | symmetry; apply stable_sort_Permutation].
Qed.

Lemma insert_by_In (x z : A) (l : list A) :
  In z (insert_by key x l) <-> z = x \/ In z l.
Proof.
  split; intros H.
  - apply (Permutation_in _ (insert_by_Permutation x l)) in H.
    destruct H; [left; congruence | now right].
  - apply (Permutation_in _ (Permutation_sym (insert_by_Permutation x l))).
    destruct H; [left; congruence | now right].
Qed.

Lemma insert_by_sorted (x : A) (l : list A) :
  StronglySorted (le_by key) l -> StronglySorted (le_by key) (insert_by key x l).
Proof.
  induction 1 as [|y l Hl IH Hy]; simpl.
  - repeat constructor.
  - destruct (key y <? key x) eqn:E.
    + apply Nat.ltb_lt in E. constructor; [exact IH|].
      apply Forall_forall. intros z Hz. apply insert_by_In in Hz as [-> | Hz].
      * unfold le_by. lia.
      * rewrite Forall_forall in Hy. now apply Hy.
    + apply Nat.ltb_ge in E. constructor; [now constructor|].
      constructor; [exact E|].
      apply Forall_forall. intros z Hz. rewrite Forall_forall in Hy.
      specialize (Hy z Hz). unfold le_by in *. lia.
Qed.

(** The output is in non-decreasing key order. *)
Lemma stable_sort_sorted (l : list A) : StronglySorted (le_by key) (stable_sort key l).
Proof.
  induction l as [|x l IH]; simpl; [constructor | now apply insert_by_sorted].
Qed.

Lemma StronglySorted_nth (R : A -> A -> Prop) (l : list A) :
  StronglySorted R l ->
  forall p q a b, p < q -> nth_error l p = Some a -> nth_error l q = Some b ->
  R a b.
Proof.
  induction 1 as [|x l Hl IH Hx]; intros p q a b Hpq Hp Hq.
  - destruct p; discriminate.
  - destruct q as [|q]; [lia|]. destruct p as [|p]; simpl in *.
    + injection Hp as ->. rewrite Forall_forall in Hx.
      apply Hx. eapply nth_error_In; eauto.
    + apply (IH p q); [lia | assumption | assumption].
Qed.

Lemma stable_sort_nth_le (l : list A) (p q : nat) (a b : A) :
  p < q ->
  nth_error (stable_sort key l) p = Some a ->
  nth_error (stable_sort key l) q = Some b ->
  key a <= key b.
Proof. apply (StronglySorted_nth (stable_sort_sorted l)). Qed.

Lemma insert_by_Before (x a b : A) (l : list A) :
  Before a b l -> Before a b (insert_by key x l).
Proof.
  induction 1 as [l Hb | y l Hab IH]; simpl.
  - destruct (key a <? key x).
    + apply Before_here. apply insert_by_In. now right.
    + apply Before_later. now apply Before_here.
  - destruct (key y <? key x).
    + now apply Before_later.
    + now do 2 apply Before_later.
Qed.

Lemma insert_by_Before_new (x b : A) (l : list A) :
  In b l -> key x <= key b -> Before x b (insert_by key x l).
Proof.
  induction l as [|y l IH]; intros Hb Hk; simpl; [contradiction|].
  destruct (key y <? key x) eqn:E.
  - apply Nat.ltb_lt in E. apply Before_later. apply IH; [|exact Hk].
    destruct Hb as [-> | Hb]; [lia | exact Hb].
  - now apply Before_here.
Qed.

(** Stability: an element that precedes, in the input, one whose key is
    not smaller still precedes it in the output. *)
Lemma stable_sort_Before (a b : A) (l : list A) :
  Before a b l -> key a <= key b -> Before a b (stable_sort key l).
Proof.
  induction 1 as [l Hb | x l _ IH]; intros Hk; simpl.
  - apply insert_by_Before_new; [|exact Hk]. now apply stable_sort_In.
  - apply insert_by_Before. now apply IH.
Qed.

Lemma insert_by_filter (P : A -> bool) (x : A) (l : list A) :
  (P x = true -> forall y, In y l -> P y = true -> key x <= key y) ->
  filter P (insert_by key x l) = filter P (x :: l).
Proof.
  induction l as [|y l IH]; intros H; [reflexivity|].
  simpl insert_by. destruct (key y <? key x) eqn:E; [|reflexivity].
  apply Nat.ltb_lt in E.
  assert (IH' : filter P (insert_by key x l) = filter P (x :: l)).
  { apply IH. intros Hx z Hz. apply (H Hx). now right. }
  simpl in *. rewrite IH'.
  destruct (P x) eqn:Hx; [|reflexivity].
  destruct (P y) eqn:Hy; [|reflexivity].
  specialize (H eq_refl y (or_introl eq_refl) Hy). lia.
Qed.

(** Stability on a class of elements: when the members of the class come
    in non-decreasing key order in the input, the output restricted to the
    class is the input restricted to it. *)
Lemma stable_sort_filter (P : A -> bool) (l : list A) :
  (forall a b, Before a b l -> P a = true -> P b = true -> key a <= key b) ->
  filter P (stable_sort key l) = filter P l.
Proof.
  induction l as [|x l IH]; intros H; [reflexivity|].
  simpl stable_sort. rewrite insert_by_filter.
  - simpl. rewrite IH; [reflexivity|].
    intros a b Hab. apply H. now apply Before_later.
  - intros Hx y Hy HPy. apply (proj1 (stable_sort_In y l)) in Hy.
    apply H; [apply Before_here; exact Hy | exact Hx | exact HPy].
Qed.
Lemma stable_sort_StableSortOf (l : list A) :
  StableSortOf key l (stable_sort key l).
Proof.
  split; [apply stable_sort_Permutation|].
  split; [apply stable_sort_sorted|].
  intros k. apply stable_sort_filter. intros a b _ Ha Hb.
  apply Nat.eqb_eq in Ha, Hb. lia.
Qed.

Lemma sorted_head_least (x z : A) (l : list A) :
  StronglySorted (le_by key) (x :: l) -> In z (x :: l) -> key x <= key z.
Proof.
  intros H Hz. apply StronglySorted_inv in H as [_ H].
  destruct Hz as [<- | Hz]; [lia|].
  rewrite Forall_forall in H. exact (H z Hz).
Qed.

Lemma sorted_heads_same_key (x y : A) (t1 t2 : list A) :
  StronglySorted (le_by key) (y :: t2) ->
  (forall k, filter (fun z => key z =? k) (x :: t1)
             = filter (fun z => key z =? k) (y :: t2)) ->
  key y <= key x.
Proof.
  intros Hs H. specialize (H (key x)).
  simpl filter at 1 in H. rewrite Nat.eqb_refl in H.
  assert (Hin : In x (filter (fun z => key z =? key x) (y :: t2)))
    by (rewrite <- H; now left).
  apply filter_In in Hin as [Hin _].
  exact (sorted_head_least Hs Hin).
Qed.

Lemma sorted_filters_eq (o1 o2 : list A) :
  StronglySorted (le_by key) o1 -> StronglySorted (le_by key) o2 ->
  (forall k, filter (fun z => key z =? k) o1 = filter (fun z => key z =? k) o2) ->
  o1 = o2.
Proof.
  intros H1. revert o2. induction H1 as [|x t1 Ht1 IH Hx]; intros o2 H2 H.
  - destruct o2 as [|y t2]; [reflexivity|].
    specialize (H (key y)). simpl in H. rewrite Nat.eqb_refl in H. discriminate.
  - destruct o2 as [|y t2].
    + specialize (H (key x)). simpl in H. rewrite Nat.eqb_refl in H. discriminate.
    + assert (Hxy : key x = key y).
      { apply Nat.le_antisymm.
        - apply (@sorted_heads_same_key y x t2 t1); [now constructor|].
          intros k. symmetry. apply H.
        - apply (@sorted_heads_same_key x y t1 t2); [exact H2 | exact H]. }
      pose proof (H (key x)) as Hk. simpl in Hk.
      rewrite <- Hxy, Nat.eqb_refl in Hk. injection Hk as -> Hk.
      f_equal. apply IH; [now apply StronglySorted_inv in H2|].
      intros k. specialize (H k). simpl in H.
      destruct (key y =? k); [now injection H | exact H].
Qed.

(** A stable sort is determined by the input and the keys, whatever the
    algorithm. *)
Lemma StableSortOf_unique (l o1 o2 : list A) :
  StableSortOf key l o1 -> StableSortOf key l o2 -> o1 = o2.
Proof.
  intros [_ [S1 F1]] [_ [S2 F2]]. apply sorted_filters_eq; [exact S1 | exact S2 |].
  intros k. now rewrite F1, F2.
Qed.
End SortFacts.

Lemma insert_by_map (A B : Type) (g : A -> B) (key : B -> nat) (x : A) (l : list A) :
  insert_by key (g x) (map g l) = map g (insert_by (fun y => key (g y)) x l).
Proof.
  induction l as [|y l IH]; simpl; [reflexivity|].
  destruct (key (g y) <? key (g x)); simpl; [now rewrite IH | reflexivity].
Qed.

Lemma stable_sort_map (A B : Type) (g : A -> B) (key : B -> nat) (l : list A) :
  stable_sort key (map g l) = map g (stable_sort (fun y => key (g y)) l).
Proof.
  induction l as [|x l IH]; simpl; [reflexivity|].
  now rewrite IH, insert_by_map.
Qed.

Lemma decorate_total (A : Type) (key : A -> option nat) (k : A -> nat) (l : list A) :
  (forall x, In x l -> key x = Some (k x)) ->
  decorate key l = Some (map (fun x => (k x, x)) l).
Proof.
  induction l as [|x l IH]; intros H; simpl; [reflexivity|].
  rewrite (H x (or_introl eq_refl)), IH; [reflexivity|].
  intros y Hy. apply H. now right.
Qed.

(** When the key function raises on no element, [sorted] returns the
    stable sort by that key. *)
Lemma py_sorted_total (A : Type) (key : A -> option nat) (k : A -> nat) (l : list A) :
  (forall x, In x l -> key x = Some (k x)) ->
  py_sorted key l = Some (stable_sort k l).
Proof.
  intros H. unfold py_sorted. rewrite (decorate_total key k l H).
  f_equal. rewrite (stable_sort_map (fun x => (k x, x)) fst).
  rewrite map_map. simpl. apply map_id.
Qed.

(* ================================================================= *)
(** ** PrioritySorter *)

(** *** The scan of the priority list *)

Lemma first_match_from_S (n : nat) (priority_list : list string) (filename : string) :
  first_match_from (S n) priority_list filename
  = option_map S (first_match_from n priority_list filename).
Proof.
  revert n. induction priority_list as [|item rest IH]; intros n; simpl; [reflexivity|].
  destruct (matches item filename); [reflexivity | apply IH].
Qed.

Lemma first_match_cons (item : string) (rest : list string) (filename : string) :
  first_match (item :: rest) filename
  = if matches item filename then Some 0
    else option_map S (first_match rest filename).
Proof.
  unfold first_match. simpl. destruct (matches item filename); [reflexivity|].
  apply first_match_from_S.
Qed.

(** The index returned is that of a matching item, and no earlier item
    matches. *)
Lemma first_match_Some (priority_list : list string) (filename : string) (i : nat) :
  first_match priority_list filename = Some i ->
  (exists item, nth_error priority_list i = Some item
                /\ matches item filename = true)
  /\ (forall j item, j < i -> nth_error priority_list j = Some item ->
                     matches item filename = false).
Proof.
  revert i. induction priority_list as [|item rest IH]; intros i.
  - discriminate.
  - rewrite first_match_cons. destruct (matches item filename) eqn:E.
    + intros H. injection H as <-. split.
      * exists item. now split.
      * intros j item' Hj. lia.
    + destruct (first_match rest filename) as [k|]; [|discriminate].
      simpl. intros H. injection H as <-.
      destruct (IH k eq_refl) as [[item' [Hn Hm]] Hfirst]. split.
      * exists item'. now split.
      * intros [|j] item'' Hj Hnth; simpl in Hnth.
        -- now injection Hnth as <-.
        -- apply (Hfirst j); [lia | exact Hnth].
Qed.



Lemma first_match_lt_length (priority_list : list string) (filename : string) (i : nat) :
  first_match priority_list filename = Some i -> i < List.length priority_list.
Proof.
  intros H. destruct (first_match_Some _ _ H) as [[item [Hn _]] _].
  apply nth_error_Some. congruence.
Qed.

(** *** [list.index] *)

Lemma list_index_first (files : list Path) (x : Path) (p : nat) :
  nth_error files p = Some x ->
  exists k, list_index files x = Some k /\ k <= p
            /\ nth_error files k = Some x
            /\ (forall j, j < k -> nth_error files j <> Some x).
Proof.
  revert p. induction files as [|y files IH]; intros p Hp.
  - destruct p; discriminate.
  - simpl. destruct (Path_eqb_spec y x) as [->|Hne].
    + exists 0. repeat split; [lia | intros j Hj; lia].
    + destruct p as [|p]; simpl in Hp; [congruence|].
      destruct (IH p Hp) as [k [Hk [Hle [Hnth Hfirst]]]].
      rewrite Hk. exists (S k). repeat split; [lia | exact Hnth |].
      intros [|j] Hj; simpl; [congruence | apply Hfirst; lia].
Qed.

Lemma list_index_In (files : list Path) (x : Path) :
  In x files -> exists k, list_index files x = Some k.
Proof.
  intros H. apply In_nth_error in H as [p Hp].
  destruct (list_index_first _ _ Hp) as [k [Hk _]]. now exists k.
Qed.

(** Without duplicates, [index] gives the position back. *)
Lemma list_index_NoDup (files : list Path) (x : Path) (p : nat) :
  NoDup files -> nth_error files p = Some x -> list_index files x = Some p.
Proof.
  intros Hnd Hp. destruct (list_index_first _ _ Hp) as [k [Hk [Hle [Hnth _]]]].
  rewrite Hk. f_equal.
  apply (proj1 (NoDup_nth_error files) Hnd); [|congruence].
  apply nth_error_Some. congruence.
Qed.

(** *** The key and the sort *)

Lemma get_priority_index_rank (files : list Path) (priority_list : list string)
    (f : Path) :
  In f files ->
  get_priority_index files priority_list f = Some (rank files priority_list f).
Proof.
  intros H. unfold rank, get_priority_index.
  destruct (first_match priority_list (name f)); [reflexivity|].
  destruct (list_index_In _ _ H) as [k ->]. reflexivity.
Qed.

Lemma rank_matched (files : list Path) (priority_list : list string)
    (f : Path) (i : nat) :
  first_match priority_list (name f) = Some i -> rank files priority_list f = i.
Proof. intros H. unfold rank, get_priority_index. now rewrite H. Qed.

Lemma rank_unmatched (files : list Path) (priority_list : list string)
    (f : Path) (k : nat) :
  first_match priority_list (name f) = None ->
  list_index files f = Some k ->
  rank files priority_list f = List.length priority_list + k.
Proof. intros H Hk. unfold rank, get_priority_index. now rewrite H, Hk. Qed.

(** The key function raises on no member of [files], so the call returns:
    [sort_by_priority] is the stable sort of [files] by [rank]. *)
Lemma sort_by_priority_eq (files : list Path) (priority_list : list string) :
  sort_by_priority files priority_list
  = Some (stable_sort (rank files priority_list) files).
Proof.
  unfold sort_by_priority. apply py_sorted_total.
  intros f Hf. now apply get_priority_index_rank.
Qed.



(** *** Stability *)

(** X4.  Files with the same first matching item keep their input order. *)
Lemma sort_by_priority_stable_matched
    (files : list Path) (priority_list : list string) (i : nat) :
  exists out,
    sort_by_priority files priority_list = Some out
    /\ filter (matched_at priority_list i) out
       = filter (matched_at priority_list i) files.
Proof.
  exists (stable_sort (rank files priority_list) files).
  split; [apply sort_by_priority_eq|].
  apply stable_sort_filter. intros a b _ Ha Hb.
  unfold matched_at in Ha, Hb.
  destruct (first_match priority_list (name a)) as [ja|] eqn:Ea; [|discriminate].
  destruct (first_match priority_list (name b)) as [jb|] eqn:Eb; [|discriminate].
  apply Nat.eqb_eq in Ha, Hb.
  rewrite (rank_matched files _ _ Ea), (rank_matched files _ _ Eb). lia.
Qed.

(** X5.  When no path occurs twice in the input, the files that no item
    matches keep their input order. *)
Lemma sort_by_priority_stable_unmatched
    (files : list Path) (priority_list : list string) :
  NoDup files ->
  exists out,
    sort_by_priority files priority_list = Some out
    /\ filter (unmatched priority_list) out
       = filter (unmatched priority_list) files.
Proof.
  intros Hnd.
  exists (stable_sort (rank files priority_list) files).
  split; [apply sort_by_priority_eq|].
  apply stable_sort_filter. intros a b Hab Ha Hb.
  unfold unmatched in Ha, Hb.
  destruct (first_match priority_list (name a)) eqn:Ea; [discriminate|].
  destruct (first_match priority_list (name b)) eqn:Eb; [discriminate|].
  apply Before_nth in Hab as [p [q [Hpq [Hp Hq]]]].
  rewrite (@rank_unmatched files priority_list a p Ea
             (@list_index_NoDup files a p Hnd Hp)).
  rewrite (@rank_unmatched files priority_list b q Eb
             (@list_index_NoDup files b q Hnd Hq)). lia.
Qed.

(** C2 (stability), on an input the code can receive: the same path
    twice ([a.png], [b.png], [a.png]; the upload handler appends one path
    per uploaded file and two uploads may carry one name), with an empty
    priority list.  No item matches any of the three files, so the claim
    asks for the input order; [index] gives both occurrences of [a.png] the
    position 0, and the sort returns [a.png], [a.png], [b.png]. *)
Theorem sort_by_priority_duplicate_path_reordered :
  let a := mkPath "/tmp/pdf_gen" "a.png" in
  let b := mkPath "/tmp/pdf_gen" "b.png" in
  filter (unmatched []) [a; b; a] = [a; b; a]
  /\ map (get_priority_index [a; b; a] []) [a; b; a] = [Some 0; Some 1; Some 0]
  /\ sort_by_priority [a; b; a] [] = Some [a; a; b]
  /\ filter (unmatched []) [a; a; b] <> filter (unmatched []) [a; b; a].
Proof.
  cbv zeta. repeat split; try reflexivity.
  vm_compute. discriminate.
Qed.

(** C8 (worked scenario).  With the priority string [b,a] and the files
    [a.png], [b.png], [c.png] of one directory: the parsed list is [b], [a];
    none of the names holds a semicolon, so all three are in the second
    group; the keys are 1, 0 and 2 + 2 = 4; the sorted order is [b.png],
    [a.png], [c.png]. *)
Theorem scenario_priority_b_a (dir : string) :
  let a := mkPath dir "a.png" in
  let b := mkPath dir "b.png" in
  let c := mkPath dir "c.png" in
  let priority_list := parse_priority_list "b,a" in
  priority_list = ["b"; "a"]
  /\ split_by_semicolon [a; b; c] = ([], [a; b; c])
  /\ get_priority_index [a; b; c] priority_list b = Some 0
  /\ get_priority_index [a; b; c] priority_list a = Some 1
  /\ get_priority_index [a; b; c] priority_list c
     = Some (List.length priority_list + 2)
  /\ List.length priority_list + 2 = 4
  /\ sort_by_priority [a; b; c] priority_list = Some [b; a; c].
Proof.
  cbv zeta.
  assert (Hc : get_priority_index
                 [mkPath dir "a.png"; mkPath dir "b.png"; mkPath dir "c.png"]
                 ["b"; "a"] (mkPath dir "c.png") = Some 4).
  { unfold get_priority_index. simpl.
    unfold Path_eqb. simpl. rewrite !String.eqb_refl. reflexivity. }
  change (parse_priority_list "b,a") with ["b"; "a"].
  repeat split; try reflexivity; try exact Hc.
  unfold sort_by_priority, py_sorted.
  cbn [decorate]. rewrite Hc. reflexivity.
Qed.

(** *** Entries with equal paths *)

Lemma map_snd_enumerate_from (A : Type) (n : nat) (l : list A) :
  map snd (enumerate_from n l) = l.
Proof.
  revert n. induction l as [|x l IH]; intros n; simpl; [reflexivity|].
  now rewrite IH.
Qed.

Lemma nth_error_enumerate_from (A : Type) (n p : nat) (l : list A) (x : A) :
  nth_error l p = Some x -> nth_error (enumerate_from n l) p = Some (n + p, x).
Proof.
  revert n p. induction l as [|y l IH]; intros n p H.
  - destruct p; discriminate.
  - destruct p as [|p]; simpl in *.
    + injection H as ->. now rewrite Nat.add_0_r.
    + rewrite (IH (S n) p H). do 2 f_equal. lia.
Qed.

Lemma In_enumerate_from (A : Type) (n : nat) (l : list A) (e : nat * A) :
  In e (enumerate_from n l) -> In (snd e) l.
Proof.
  intros H. rewrite <- (map_snd_enumerate_from n l). now apply in_map.
Qed.

Lemma sort_by_priority_entries_eq (files : list Path) (priority_list : list string) :
  sort_by_priority_entries files priority_list
  = Some (stable_sort (fun e => rank files priority_list (snd e))
            (enumerate files)).
Proof.
  unfold sort_by_priority_entries. apply py_sorted_total.
  intros e He. apply get_priority_index_rank.
  exact (In_enumerate_from _ _ _ He).
Qed.

(** Forgetting the labels of the sorted entries gives the sorted paths. *)
Lemma sort_by_priority_entries_paths (files : list Path) (priority_list : list string) :
  option_map (map snd) (sort_by_priority_entries files priority_list)
  = sort_by_priority files priority_list.
Proof.
  rewrite sort_by_priority_entries_eq, sort_by_priority_eq. simpl. f_equal.
  rewrite <- (stable_sort_map snd (rank files priority_list)).
  unfold enumerate. now rewrite map_snd_enumerate_from.
Qed.

(** The claim C10 as it is stated, on two files of one name in two
    directories and an empty priority list: the filenames are identical and
    no item matches them, but the paths differ, [index] finds each at its
    own position, and the two keys are 0 and 1, not the same key. *)
Lemma sort_by_priority_same_name_two_directories :
  name (mkPath "/x" "u.png") = name (mkPath "/y" "u.png")
  /\ first_match [] (name (mkPath "/x" "u.png")) = None
  /\ get_priority_index [mkPath "/x" "u.png"; mkPath "/y" "u.png"] []
       (mkPath "/x" "u.png") = Some 0
  /\ get_priority_index [mkPath "/x" "u.png"; mkPath "/y" "u.png"] []
       (mkPath "/y" "u.png") = Some 1
  /\ get_priority_index [mkPath "/x" "u.png"; mkPath "/y" "u.png"] []
       (mkPath "/x" "u.png")
     <> get_priority_index [mkPath "/x" "u.png"; mkPath "/y" "u.png"] []
          (mkPath "/y" "u.png").
Proof.
  repeat split; try reflexivity. vm_compute. discriminate.
Qed.

(** C10 (duplicate filenames), amended to entries that are equal paths,
    directory and filename.  When the input holds the same path at two
    positions [p < q] and no priority item matches its name: [index] finds
    the first occurrence, at some [k <= p], and the key of both entries is
    [len(priority_list) + k]; the sort returns, the entry of position [p]
    still comes before the entry of position [q], and the output is a
    permutation of the input. *)
Theorem sort_by_priority_duplicate_names
    (files : list Path) (priority_list : list string) (f : Path) (p q : nat) :
  p < q ->
  nth_error files p = Some f ->
  nth_error files q = Some f ->
  first_match priority_list (name f) = None ->
  exists k entries out,
    list_index files f = Some k
    /\ k <= p /\ nth_error files k = Some f
    /\ (forall j, j < k -> nth_error files j <> Some f)
    /\ get_priority_index files priority_list f
       = Some (List.length priority_list + k)
    /\ sort_by_priority_entries files priority_list = Some entries
    /\ sort_by_priority files priority_list = Some out
    /\ map snd entries = out
    /\ Before (p, f) (q, f) entries
    /\ Permutation out files.
Proof.
  intros Hpq Hp Hq Hnone.
  destruct (list_index_first _ _ Hp) as [k [Hk [Hle [Hnth Hfirst]]]].
  exists k,
    (stable_sort (fun e => rank files priority_list (snd e)) (enumerate files)),
    (stable_sort (rank files priority_list) files).
  repeat split.
  - exact Hk.
  - exact Hle.
  - exact Hnth.
  - exact Hfirst.
  - unfold get_priority_index. now rewrite Hnone, Hk.
  - apply sort_by_priority_entries_eq.
  - apply sort_by_priority_eq.
  - pose proof (sort_by_priority_entries_paths files priority_list) as H.
    rewrite sort_by_priority_entries_eq, sort_by_priority_eq in H.
    simpl in H. now injection H.
  - apply stable_sort_Before; [|simpl; lia].
    apply Before_nth. exists p, q. split; [exact Hpq|].
    split; apply (nth_error_enumerate_from 0); assumption.
  - apply stable_sort_Permutation.
Qed.

(** A use of C10: [a.png] uploaded twice around [b.png], no priorities. *)
Lemma sort_by_priority_duplicate_names_witness :
  exists k entries out,
    list_index [mkPath "/tmp" "a.png"; mkPath "/tmp" "b.png"; mkPath "/tmp" "a.png"]
      (mkPath "/tmp" "a.png") = Some k
    /\ k <= 0
    /\ nth_error [mkPath "/tmp" "a.png"; mkPath "/tmp" "b.png"; mkPath "/tmp" "a.png"] k
       = Some (mkPath "/tmp" "a.png")
    /\ (forall j, j < k ->
          nth_error [mkPath "/tmp" "a.png"; mkPath "/tmp" "b.png"; mkPath "/tmp" "a.png"] j
          <> Some (mkPath "/tmp" "a.png"))
    /\ get_priority_index
         [mkPath "/tmp" "a.png"; mkPath "/tmp" "b.png"; mkPath "/tmp" "a.png"] []
         (mkPath "/tmp" "a.png") = Some (List.length (@nil string) + k)
    /\ sort_by_priority_entries
         [mkPath "/tmp" "a.png"; mkPath "/tmp" "b.png"; mkPath "/tmp" "a.png"] []
       = Some entries
    /\ sort_by_priority
         [mkPath "/tmp" "a.png"; mkPath "/tmp" "b.png"; mkPath "/tmp" "a.png"] []
       = Some out
    /\ map snd entries = out
    /\ Before (0, mkPath "/tmp" "a.png") (2, mkPath "/tmp" "a.png") entries
    /\ Permutation out
         [mkPath "/tmp" "a.png"; mkPath "/tmp" "b.png"; mkPath "/tmp" "a.png"].
Proof.
  apply (@sort_by_priority_duplicate_names
           [mkPath "/tmp" "a.png"; mkPath "/tmp" "b.png"; mkPath "/tmp" "a.png"]
           [] (mkPath "/tmp" "a.png") 0 2).
  - lia.
  - reflexivity.
  - reflexivity.
  - reflexivity.
Defined.

(* ================================================================= *)
(** ** PageLayoutEngine *)

Local Open Scope Q_scope.

Lemma Qltb_true (x y : Q) : Qltb x y = true <-> x < y.
Proof.
  unfold Qltb. rewrite negb_true_iff. split.
  - intros H. apply Qnot_le_lt. intros Hle.
    apply Qle_bool_iff in Hle. congruence.
  - intros H. destruct (Qle_bool y x) eqn:E; [|reflexivity].
    apply Qle_bool_iff in E. exfalso. now apply (Qlt_not_le x y).
Qed.

Lemma Qltb_false (x y : Q) : Qltb x y = false <-> y <= x.
Proof.
  unfold Qltb. rewrite negb_false_iff. apply Qle_bool_iff.
Qed.

(** [min] returns one of its arguments, below the three of them. *)
Lemma py_min3_le (a b c : Q) :
  py_min3 a b c <= a /\ py_min3 a b c <= b /\ py_min3 a b c <= c.
Proof.
  unfold py_min3.
  destruct (Qltb b a) eqn:Eba;
    [apply Qltb_true in Eba | apply Qltb_false in Eba].
  - destruct (Qltb c b) eqn:Ecb;
      [apply Qltb_true in Ecb | apply Qltb_false in Ecb].
    + repeat split; [| apply Qlt_le_weak, Ecb | apply Qle_refl].
      apply Qlt_le_weak. now apply Qlt_trans with b.
    + repeat split; [now apply Qlt_le_weak | apply Qle_refl | exact Ecb].
  - destruct (Qltb c a) eqn:Eca;
      [apply Qltb_true in Eca | apply Qltb_false in Eca].
    + repeat split; [now apply Qlt_le_weak | | apply Qle_refl].
      apply Qlt_le_weak. now apply Qlt_le_trans with a.
    + repeat split; [apply Qle_refl | exact Eba | exact Eca].
Qed.

Lemma py_min3_cases (a b c : Q) :
  py_min3 a b c = a \/ py_min3 a b c = b \/ py_min3 a b c = c.
Proof.
  unfold py_min3. destruct (Qltb b a).
  - destruct (Qltb c b); auto.
  - destruct (Qltb c a); auto.
Qed.

Lemma inject_Z_pos (n : Z) : (0 < n)%Z -> 0 < inject_Z n.
Proof. intros H. now rewrite Zlt_Qlt in H. Qed.

Lemma layout_defined (page_width page_height : Q) (iw ih : Z) :
  (0 < iw)%Z -> (0 < ih)%Z ->
  exists l,
    layout page_width page_height iw ih = Some l
    /\ scale_ratio l
       = py_min3 ((page_width - 100) / inject_Z iw)
                 ((page_height - 150) / inject_Z ih) 1
    /\ scaled_width l = inject_Z iw * scale_ratio l
    /\ scaled_height l = inject_Z ih * scale_ratio l
    /\ target_pixel_width l = py_int (scaled_width l * 2)
    /\ target_pixel_height l = py_int (scaled_height l * 2)
    /\ resize_needed l
       = ((target_pixel_width l <? iw)%Z || (target_pixel_height l <? ih)%Z)%bool.
Proof.
  intros Hw Hh. unfold layout, py_div.
  destruct (Z.eqb_spec iw 0) as [E|_]; [lia|].
  destruct (Z.eqb_spec ih 0) as [E|_]; [lia|].
  eexists. split; [reflexivity|]. simpl. repeat split; reflexivity.
Qed.

Lemma scaled_le (n : Z) (s : Q) : (0 < n)%Z -> s <= 1 -> inject_Z n * s <= inject_Z n.
Proof.
  intros Hn Hs. apply inject_Z_pos in Hn.
  apply Qle_trans with (inject_Z n * 1).
  - apply Qmult_le_l; assumption.
  - rewrite Qmult_1_r. apply Qle_refl.
Qed.

(** C4 (no upscale).  For every image of positive width and height and
    every page size, the layout is computed (no division by zero), its scale
    ratio is [min(available_width / img_width, available_height /
    img_height, 1.0)], that ratio is at most 1, and the drawn width and
    height are at most the image's. *)
Theorem layout_no_upscale (page_width page_height : Q) (iw ih : Z) :
  (0 < iw)%Z -> (0 < ih)%Z ->
  exists l,
    layout page_width page_height iw ih = Some l
    /\ scale_ratio l
       = py_min3 ((page_width - 100) / inject_Z iw)
                 ((page_height - 150) / inject_Z ih) 1
    /\ scale_ratio l <= 1
    /\ scaled_width l <= inject_Z iw
    /\ scaled_height l <= inject_Z ih.
Proof.
  intros Hw Hh.
  destruct (layout_defined page_width page_height Hw Hh)
    as [l [Hl [Hs [Hsw [Hsh _]]]]].
  assert (H1 : scale_ratio l <= 1) by (rewrite Hs; apply py_min3_le).
  exists l. repeat split; try assumption.
  - rewrite Hsw. now apply scaled_le.
  - rewrite Hsh. now apply scaled_le.
Qed.

(** A use of C4: a 1000 by 500 image on a letter page is drawn at 512 by
    256. *)
Lemma layout_no_upscale_witness :
  exists l,
    layout 612 792 1000 500 = Some l
    /\ scale_ratio l = py_min3 ((612 - 100) / inject_Z 1000)
                               ((792 - 150) / inject_Z 500) 1
    /\ scale_ratio l <= 1
    /\ scaled_width l <= inject_Z 1000
    /\ scaled_height l <= inject_Z 500.
Proof.
  apply (@layout_no_upscale 612 792 1000 500); reflexivity.
Defined.

(** *** [int] on the rationals *)

Lemma py_int_nonneg_le (x : Q) : 0 <= x -> inject_Z (py_int x) <= x.
Proof.
  destruct x as [n d]. unfold Qle, py_int. simpl. intros H.
  rewrite Z.mul_1_r in *. rewrite Z.quot_div_nonneg by lia.
  rewrite Z.mul_comm. apply Z.mul_div_le. lia.
Qed.

Lemma py_int_nonneg_ge (x : Q) (n : Z) :
  0 <= x -> inject_Z n <= x -> (n <= py_int x)%Z.
Proof.
  destruct x as [m d]. unfold Qle, py_int. simpl. intros H Hn.
  rewrite Z.mul_1_r in *. rewrite Z.quot_div_nonneg by lia.
  apply Z.div_le_lower_bound; lia.
Qed.

Lemma py_int_nonpos (x : Q) : x <= 0 -> (py_int x <= 0)%Z.
Proof.
  destruct x as [m d]. unfold Qle, py_int. simpl. intros H.
  rewrite Z.mul_1_r in *.
  replace m with (- - m)%Z by lia.
  rewrite Z.quot_opp_l by lia.
  assert (0 <= (- m) ÷ Z.pos d)%Z by (apply Z.quot_pos; lia). lia.
Qed.

Lemma py_int_lt (x : Q) (n : Z) : (0 < n)%Z -> x < inject_Z n -> (py_int x < n)%Z.
Proof.
  intros Hn Hx. destruct (Qlt_le_dec x 0) as [Hneg | Hpos].
  - apply Qlt_le_weak in Hneg. apply py_int_nonpos in Hneg. lia.
  - rewrite Zlt_Qlt. apply Qle_lt_trans with x; [|exact Hx].
    now apply py_int_nonneg_le.
Qed.

(** The target of one dimension against the source: smaller when twice the
    scale is below 1, not smaller otherwise. *)
Lemma target_below (n : Z) (s : Q) :
  (0 < n)%Z -> s * 2 < 1 -> (py_int (inject_Z n * s * 2) < n)%Z.
Proof.
  intros Hn Hs. apply py_int_lt; [exact Hn|].
  apply inject_Z_pos in Hn. nra.
Qed.

Lemma target_not_below (n : Z) (s : Q) :
  (0 < n)%Z -> 1 <= s * 2 -> (n <= py_int (inject_Z n * s * 2))%Z.
Proof.
  intros Hn Hs. apply inject_Z_pos in Hn.
  apply py_int_nonneg_ge; nra.
Qed.

(** On a page that leaves room between the margins the scale, and with it
    both targets, is not negative. *)
Lemma targets_nonneg (page_width page_height : Q) (iw ih : Z) :
  (0 < iw)%Z -> (0 < ih)%Z -> 100 <= page_width -> 150 <= page_height ->
  let s := py_min3 ((page_width - 100) / inject_Z iw)
                   ((page_height - 150) / inject_Z ih) 1 in
  (0 <= py_int (inject_Z iw * s * 2))%Z /\ (0 <= py_int (inject_Z ih * s * 2))%Z.
Proof.
  intros Hw Hh Hpw Hph s.
  apply inject_Z_pos in Hw, Hh.
  assert (Hs : 0 <= s).
  { unfold s.
    destruct (py_min3_cases ((page_width - 100) / inject_Z iw)
                ((page_height - 150) / inject_Z ih) 1) as [-> | [-> | ->]].
    - apply Qle_shift_div_l; [exact Hw|]. lra.
    - apply Qle_shift_div_l; [exact Hh|]. lra.
    - discriminate. }
  assert (Xw : 0 <= inject_Z iw * s * 2) by nra.
  assert (Xh : 0 <= inject_Z ih * s * 2) by nra.
  split; apply py_int_nonneg_ge; assumption.
Qed.

(** C5 (conditional resampling).  For every image of positive width and
    height and every page size, with the targets [int(scaled_width * 2)] and
    [int(scaled_height * 2)]: when the resize is performed, both targets are
    below the source's dimensions, and the target pixel count (of a target
    that is a raster size, neither dimension negative) is below the
    source's; when it is not performed, neither target is below the source's
    dimension; on a page of at least 100 by 150 points (the margins taken
    off the page) no target is negative. *)
Theorem layout_resize_only_reduces (page_width page_height : Q) (iw ih : Z) :
  (0 < iw)%Z -> (0 < ih)%Z ->
  exists l,
    layout page_width page_height iw ih = Some l
    /\ target_pixel_width l = py_int (scaled_width l * 2)
    /\ target_pixel_height l = py_int (scaled_height l * 2)
    /\ (resize_needed l = true ->
        (target_pixel_width l < iw)%Z /\ (target_pixel_height l < ih)%Z
        /\ ((0 <= target_pixel_width l)%Z -> (0 <= target_pixel_height l)%Z ->
            (target_pixel_width l * target_pixel_height l < iw * ih)%Z))
    /\ (resize_needed l = false ->
        (iw <= target_pixel_width l)%Z /\ (ih <= target_pixel_height l)%Z)
    /\ (100 <= page_width -> 150 <= page_height ->
        (0 <= target_pixel_width l)%Z /\ (0 <= target_pixel_height l)%Z).
Proof.
  intros Hw Hh.
  destruct (layout_defined page_width page_height Hw Hh)
    as [l [Hl [Hs [Hsw [Hsh [Htw [Hth Hr]]]]]]].
  exists l. split; [exact Hl|]. split; [exact Htw|]. split; [exact Hth|].
  rewrite Hsw in Htw. rewrite Hsh in Hth.
  assert (HC : 100 <= page_width -> 150 <= page_height ->
               (0 <= target_pixel_width l)%Z /\ (0 <= target_pixel_height l)%Z).
  { intros Hpw Hph. rewrite Htw, Hth, Hs. now apply targets_nonneg. }
  enough (HAB : (resize_needed l = true ->
                 (target_pixel_width l < iw)%Z /\ (target_pixel_height l < ih)%Z
                 /\ ((0 <= target_pixel_width l)%Z ->
                     (0 <= target_pixel_height l)%Z ->
                     (target_pixel_width l * target_pixel_height l < iw * ih)%Z))
                /\ (resize_needed l = false ->
                    (iw <= target_pixel_width l)%Z
                    /\ (ih <= target_pixel_height l)%Z)).
  { destruct HAB as [HA HB]. split; [exact HA | split; [exact HB | exact HC]]. }
  destruct (Qlt_le_dec (scale_ratio l * 2) 1) as [H2 | H2].
  - pose proof (target_below Hw H2) as Bw. pose proof (target_below Hh H2) as Bh.
    rewrite <- Htw in Bw. rewrite <- Hth in Bh.
    split.
    + intros _. split; [exact Bw|]. split; [exact Bh|]. intros Pw Ph. nia.
    + intros Hfalse. rewrite Hr in Hfalse.
      apply orb_false_iff in Hfalse as [Hfalse _].
      apply Z.ltb_ge in Hfalse. lia.
  - pose proof (target_not_below Hw H2) as Bw.
    pose proof (target_not_below Hh H2) as Bh.
    rewrite <- Htw in Bw. rewrite <- Hth in Bh.
    split.
    + intros Htrue. rewrite Hr in Htrue.
      apply orb_true_iff in Htrue as [Htrue | Htrue];
        apply Z.ltb_lt in Htrue; lia.
    + intros _. split; assumption.
Qed.

(** A use of C5: a 4000 by 3000 image on a letter page has the targets
    1024 by 768 and is resized. *)
Lemma layout_resize_only_reduces_witness :
  exists l,
    layout 612 792 4000 3000 = Some l
    /\ target_pixel_width l = py_int (scaled_width l * 2)
    /\ target_pixel_height l = py_int (scaled_height l * 2)
    /\ (resize_needed l = true ->
        (target_pixel_width l < 4000)%Z /\ (target_pixel_height l < 3000)%Z
        /\ ((0 <= target_pixel_width l)%Z -> (0 <= target_pixel_height l)%Z ->
            (target_pixel_width l * target_pixel_height l < 4000 * 3000)%Z))
    /\ (resize_needed l = false ->
        (4000 <= target_pixel_width l)%Z /\ (3000 <= target_pixel_height l)%Z)
    /\ (100 <= 612 -> 150 <= 792 ->
        (0 <= target_pixel_width l)%Z /\ (0 <= target_pixel_height l)%Z).
Proof.
  apply (@layout_resize_only_reduces 612 792 4000 3000); reflexivity.
Defined.

Example layout_4000_3000 :
  option_map (fun l => (target_pixel_width l, target_pixel_height l, resize_needed l))
    (layout 612 792 4000 3000) = Some (1024%Z, 768%Z, true).
Proof. reflexivity. Qed.

Local Close Scope Q_scope.

(* ================================================================= *)
(** ** DocumentComposer *)

Section ComposerFacts.
Variable env : Env.
Variable output_path : Path.
Variables page_width page_height : Q.

(** What the [try] block does to the canvas: on success the heading and
    the image close a page; on an exception the heading, drawn before the
    image was opened, stays on the page being drawn. *)
Lemma render_page_run (img_path : Path) (s : State) :
  render_page env page_width page_height img_path s
  = match prepare env page_width page_height img_path with
    | Returned (img, l) =>
        ({| pages := pages s
                     ++ [code s ++ heading page_width page_height img_path
                         ++ [DrawImage img (img_x l) (img_y l)
                               (scaled_width l) (scaled_height l)]];
            code := [];
            stdout := stdout s ++ [("Added: " ++ name img_path)%string];
            stderr := stderr s |}, Returned tt)
    | Raised e =>
        ({| pages := pages s;
            code := code s ++ heading page_width page_height img_path;
            stdout := stdout s;
            stderr := stderr s |}, Raised e)
    end.
Proof.
  unfold render_page, prepare, heading, bind, draw, call, ret, raise, showPage, print.
  destruct s as [pg cd out err]. simpl.
  destruct (image_open env img_path) as [img|]; simpl;
    [|now rewrite <- !app_assoc].
  destruct (layout page_width page_height (img_width (to_rgb img))
              (img_height (to_rgb img))) as [l|]; simpl;
    [|now rewrite <- !app_assoc].
  destruct (resize_needed l); simpl.
  - destruct (image_resize env (to_rgb img) (target_pixel_width l)
                (target_pixel_height l)) as [img'|]; simpl;
      [|now rewrite <- !app_assoc].
    destruct (jpeg_embed_ok env img'); simpl; now rewrite <- !app_assoc.
  - destruct (jpeg_embed_ok env (to_rgb img)); simpl; now rewrite <- !app_assoc.
Qed.

(** One turn of the loop never raises. *)
Lemma process_image_run (img_path : Path) (s : State) :
  process_image env page_width page_height img_path s
  = match prepare env page_width page_height img_path with
    | Returned (img, l) =>
        ({| pages := pages s
                     ++ [code s ++ heading page_width page_height img_path
                         ++ [DrawImage img (img_x l) (img_y l)
                               (scaled_width l) (scaled_height l)]];
            code := [];
            stdout := stdout s ++ [("Added: " ++ name img_path)%string];
            stderr := stderr s |}, Returned tt)
    | Raised e =>
        ({| pages := pages s;
            code := code s ++ heading page_width page_height img_path;
            stdout := stdout s;
            stderr := stderr s ++ [(name img_path, e)] |}, Returned tt)
    end.
Proof.
  unfold process_image, try_except. rewrite render_page_run.
  destruct (prepare env page_width page_height img_path) as [[img l]|e]; reflexivity.
Qed.

Lemma process_image_effect (img_path : Path) (s : State) :
  exists s',
    process_image env page_width page_height img_path s = (s', Returned tt)
    /\ List.length (pages s')
       = List.length (pages s) + (if renders env page_width page_height img_path then 1 else 0)
    /\ code_empty s' = renders env page_width page_height img_path
    /\ map fst (stderr s')
       = map fst (stderr s)
         ++ (if renders env page_width page_height img_path then [] else [name img_path]).
Proof.
  rewrite process_image_run. unfold renders.
  destruct (prepare env page_width page_height img_path) as [[img l]|e];
    eexists; (split; [reflexivity|]); simpl; repeat split.
  - rewrite length_app. reflexivity.
  - now rewrite app_nil_r.
  - lia.
  - unfold code_empty. simpl. now destruct (code s).
  - now rewrite map_app.
Qed.

(** The loop reaches its end whatever the assets do; it closes one page
    per asset that renders, and leaves operators on the page being drawn
    exactly when its last asset failed. *)
Lemma process_images_effect (image_files : list Path) (s : State) :
  exists s',
    process_images env page_width page_height image_files s = (s', Returned tt)
    /\ List.length (pages s')
       = List.length (pages s)
         + count_rendered env page_width page_height image_files
    /\ code_empty s'
       = fold_left (fun _ img_path => renders env page_width page_height img_path)
           image_files (code_empty s)
    /\ map fst (stderr s')
       = map fst (stderr s)
         ++ map name (filter (fun p => negb (renders env page_width page_height p)) image_files).
Proof.
  revert s. induction image_files as [|img_path rest IH]; intros s.
  - exists s. unfold count_rendered. simpl. repeat split; [lia | now rewrite app_nil_r].
  - destruct (process_image_effect img_path s) as [s1 [H1 [Hp1 [Hc1 He1]]]].
    destruct (IH s1) as [s' [H' [Hp' [Hc' He']]]].
    exists s'. simpl. unfold bind. rewrite H1, H'.
    split; [reflexivity|]. unfold count_rendered in *. simpl.
    rewrite Hp', Hp1, Hc', Hc1, He', He1.
    destruct (renders env page_width page_height img_path); simpl; repeat split;
      try lia; now rewrite <- ?app_assoc, ?app_nil_r.
Qed.

Lemma fold_left_last_renders (image_files : list Path) (b : bool) :
  image_files <> [] ->
  fold_left (fun _ img_path => renders env page_width page_height img_path) image_files b
  = last_renders env page_width page_height image_files.
Proof.
  unfold last_renders. destruct image_files as [|p rest]; [contradiction|].
  reflexivity.
Qed.

(** A call with at least one asset and an output that can be written
    raises nothing and saves a document.  The document has one page per
    asset that renders, and one more when the last asset fails: the heading
    of that asset is then current data at [save], which closes it as a page
    of its own. *)
Lemma create_pdf_with_images_page_count (image_files : list Path) :
  image_files <> [] ->
  output_writable env output_path = true ->
  exists d,
    document (create_pdf_with_images env output_path page_width page_height
                image_files) = Some d
    /\ raised (create_pdf_with_images env output_path page_width page_height
                 image_files) = None
    /\ List.length d
       = count_rendered env page_width page_height image_files
         + (if last_renders env page_width page_height image_files then 0 else 1)
    /\ map fst (errors (create_pdf_with_images env output_path page_width
                          page_height image_files))
       = map name (filter (fun p => negb (renders env page_width page_height p)) image_files).
Proof.
  intros Hne Hw.
  destruct (process_images_effect image_files new_canvas) as [s [Hs [Hp [Hc He]]]].
  rewrite (fold_left_last_renders _ Hne) in Hc.
  unfold create_pdf_with_images.
  destruct image_files as [|p rest]; [contradiction|].
  unfold bind. rewrite Hs. unfold save, flush_page. rewrite Hw.
  unfold code_empty in Hc. simpl in Hp, He.
  destruct (code s) as [|op ops] eqn:Ecode; rewrite <- Hc.
  - exists (pages s). simpl. repeat split; [lia | exact He].
  - exists (pages s ++ [op :: ops]). unfold showPage. simpl. rewrite Ecode.
    repeat split; [|exact He].
    rewrite length_app. simpl. lia.
Qed.
Lemma filter_all (A : Type) (f : A -> bool) (l : list A) :
  Forall (fun x => f x = true) l -> filter f l = l.
Proof.
  induction 1 as [|x l Hx _ IH]; simpl; [reflexivity|]. now rewrite Hx, IH.
Qed.

Lemma fold_left_all_render (image_files : list Path) (b : bool) :
  Forall (fun p => renders env page_width page_height p = true) image_files ->
  image_files <> [] ->
  fold_left (fun _ img_path => renders env page_width page_height img_path)
    image_files b = true.
Proof.
  intros H. revert b. induction H as [|p rest Hp _ IH]; intros b Hne.
  - contradiction.
  - simpl. rewrite Hp. destruct rest as [|p' rest']; [reflexivity|].
    apply IH. discriminate.
Qed.

(** X19.  Fault isolation as the code has it, for an output file that can
    be written: a batch whose assets all render but one gives one page per
    asset that renders when the failing asset is followed by another asset,
    and one page more when it is the last; nothing is raised. *)
Lemma create_pdf_with_images_one_failure (before after : list Path) (bad : Path) :
  output_writable env output_path = true ->
  Forall (fun p => renders env page_width page_height p = true) before ->
  Forall (fun p => renders env page_width page_height p = true) after ->
  renders env page_width page_height bad = false ->
  exists d,
    document (create_pdf_with_images env output_path page_width page_height
                (before ++ bad :: after)) = Some d
    /\ raised (create_pdf_with_images env output_path page_width page_height
                 (before ++ bad :: after)) = None
    /\ List.length d
       = List.length before + List.length after
         + (match after with [] => 1 | _ :: _ => 0 end).
Proof.
  intros Hw Hb Ha Hbad.
  destruct (@create_pdf_with_images_page_count (before ++ bad :: after))
    as [d [Hd [Hr [Hlen _]]]].
  { destruct before; discriminate. }
  { exact Hw. }
  exists d. split; [exact Hd|]. split; [exact Hr|].
  rewrite Hlen. unfold count_rendered, last_renders.
  rewrite filter_app, length_app. simpl. rewrite Hbad.
  rewrite (filter_all _ Hb), (filter_all _ Ha).
  rewrite fold_left_app. simpl. rewrite Hbad.
  destruct after as [|p rest]; [reflexivity|].
  rewrite (fold_left_all_render false Ha); [lia | discriminate].
Qed.
End ComposerFacts.

(** C6 (fault isolation), on a letter page with a batch of one asset that
    renders, [good.png], followed by one that cannot be decoded, [bad.png]
    (N = 1).  Nothing is raised and the failure is reported, but the saved
    document has two pages: the heading of [bad.png] was drawn before the
    image was opened, and [save] closes it as a second page. *)
Theorem create_pdf_with_images_failing_last_asset :
  let good := mkPath "/tmp/pdf_gen" "good.png" in
  let bad := mkPath "/tmp/pdf_gen" "bad.png" in
  let r := create_pdf_with_images example_env (mkPath "/tmp/pdf_gen" "output.pdf")
             (fst letter) (snd letter) [good; bad] in
  renders example_env (fst letter) (snd letter) good = true
  /\ renders example_env (fst letter) (snd letter) bad = false
  /\ raised r = None
  /\ errors r = [("bad.png", DecodeError)]
  /\ document r
     = Some [heading (fst letter) (snd letter) good
             ++ [DrawImage {| img_mode := RGB; img_width := 100; img_height := 50 |}
                   (512 # 2) 642 100 50];
             heading (fst letter) (snd letter) bad]
  /\ option_map (@List.length Page) (document r) = Some 2.
Proof.
  cbv zeta. repeat split; reflexivity.
Qed.

(** C7 (degenerate input).  With an empty asset list the composer is a
    no-op: it prints the warning and returns; no canvas is created, no
    document is saved, nothing is reported as an error and nothing is
    raised. *)
Theorem create_pdf_with_images_empty
    (env : Env) (output_path : Path) (page_width page_height : Q) :
  create_pdf_with_images env output_path page_width page_height []
  = {| document := None;
       printed := ["Warning: No images to process"];
       errors := [];
       raised := None |}.
Proof.
  unfold create_pdf_with_images. reflexivity.
Qed.

(* ================================================================= *)
(** * Further properties *)

(** ** More on strings *)

Lemma contains_char (c : ascii) (s : string) :
  Str.contains (String c EmptyString) s = Str.mem c s.
Proof.
  induction s as [|d s IH]; simpl; [reflexivity|].
  rewrite IH. destruct s; simpl; rewrite andb_true_r, Ascii.eqb_sym; reflexivity.
Qed.

Lemma mem_app (c : ascii) (a b : string) :
  Str.mem c (a ++ b)%string = Str.mem c a || Str.mem c b.
Proof.
  induction a as [|d a IH]; simpl; [reflexivity|].
  now rewrite IH, orb_assoc.
Qed.

Lemma split_without_sep (sep : ascii) (s : string) :
  Str.mem sep s = false -> Str.split sep s = [s].
Proof.
  induction s as [|c s IH]; simpl; [reflexivity|].
  intros H. apply orb_false_iff in H as [Hc Hs].
  rewrite Hc, (IH Hs). reflexivity.
Qed.

Lemma split_app_sep (sep : ascii) (a b : string) :
  Str.split sep (a ++ String sep b)%string = Str.split sep a ++ Str.split sep b.
Proof.
  induction a as [|c a IH]; simpl.
  - now rewrite Ascii.eqb_refl.
  - destruct (Ascii.eqb c sep); [now rewrite IH|].
    rewrite IH. pose proof (StrFacts.split_not_nil sep a) as Hn.
    destruct (Str.split sep a); [contradiction | reflexivity].
Qed.

(** Splitting what was joined gives the pieces back, when no piece holds
    the separator. *)
Lemma split_join (sep : ascii) (pieces : list string) :
  pieces <> [] ->
  Forall (fun piece => Str.mem sep piece = false) pieces ->
  Str.split sep (Str.join sep pieces) = pieces.
Proof.
  intros Hne H. induction H as [|p rest Hp Hrest IH]; [contradiction|].
  destruct rest as [|q rest'].
  - simpl. now apply split_without_sep.
  - change (Str.join sep (p :: q :: rest'))
      with (p ++ String sep (Str.join sep (q :: rest')))%string.
    rewrite split_app_sep, (split_without_sep _ _ Hp), IH; [reflexivity|discriminate].
Qed.

Lemma string_app_assoc_cons (a b : string) (c : ascii) (d : string) :
  ((a ++ String c b) ++ d)%string = (a ++ String c (b ++ d))%string.
Proof. induction a as [|x a IH]; simpl; [reflexivity | now rewrite IH]. Qed.

Lemma join_removelast_last (sep : ascii) (rest : list string) :
  rest <> [] ->
  forall p,
    Str.join sep (p :: rest)
    = (Str.join sep (removelast (p :: rest))
       ++ String sep (last (p :: rest) EmptyString))%string.
Proof.
  induction rest as [|q rest IH]; intros Hne p; [contradiction|].
  destruct rest as [|q' rest'].
  - reflexivity.
  - change (Str.join sep (p :: q :: q' :: rest'))
      with (p ++ String sep (Str.join sep (q :: q' :: rest')))%string.
    rewrite (IH ltac:(discriminate) q).
    change (removelast (p :: q :: q' :: rest'))
      with (p :: removelast (q :: q' :: rest')).
    change (last (p :: q :: q' :: rest') EmptyString)
      with (last (q :: q' :: rest') EmptyString).
    change (removelast (q :: q' :: rest')) with (q :: removelast (q' :: rest')).
    change (Str.join sep (p :: q :: removelast (q' :: rest')))
      with (p ++ String sep (Str.join sep (q :: removelast (q' :: rest'))))%string.
    now rewrite string_app_assoc_cons.
Qed.

(** [rsplit] cuts at the last separator. *)
Lemma rsplit1_cut (sep : ascii) (root ext : string) :
  Str.mem sep ext = false ->
  Str.rsplit1 sep (root ++ String sep ext)%string = [root; ext].
Proof.
  intros H. unfold Str.rsplit1.
  rewrite split_app_sep, (split_without_sep _ _ H).
  pose proof (StrFacts.join_split sep root) as Hj.
  destruct (Str.split sep root) as [|a r] eqn:E;
    [now apply StrFacts.split_not_nil in E|].
  assert (Hshape : exists b t, r ++ [ext] = b :: t)
    by (destruct r; simpl; eauto).
  destruct Hshape as [b [t Ht]]. simpl app. rewrite Ht, <- Ht.
  change (a :: r ++ [ext]) with ((a :: r) ++ [ext]).
  now rewrite removelast_last, last_last, Hj.
Qed.

Lemma last_In (A : Type) (l : list A) (d : A) : l <> [] -> In (last l d) l.
Proof.
  induction l as [|x l IH]; intros H; [contradiction|].
  destruct l as [|y l']; [now left|].
  right. apply IH. discriminate.
Qed.

Lemma split_two (sep : ascii) (s : string) :
  Str.mem sep s = true ->
  exists a b t, Str.split sep s = a :: b :: t.
Proof.
  intros H. pose proof (StrFacts.join_split sep s) as Hj.
  pose proof (StrFacts.split_no_sep sep s) as Hn.
  destruct (Str.split sep s) as [|a [|b t]] eqn:E.
  - now apply StrFacts.split_not_nil in E.
  - simpl in Hj. subst a. inversion Hn as [|? ? Hs _]. congruence.
  - now exists a, b, t.
Qed.

(** A string with a separator is its [rsplit] pieces around a separator,
    and the second piece holds none. *)
Lemma rsplit1_with_sep (sep : ascii) (s : string) :
  Str.mem sep s = true ->
  exists root ext,
    Str.rsplit1 sep s = [root; ext]
    /\ s = (root ++ String sep ext)%string
    /\ Str.mem sep ext = false.
Proof.
  intros H. destruct (split_two _ _ H) as [a [b [t E]]].
  pose proof (StrFacts.join_split sep s) as Hj.
  pose proof (StrFacts.split_no_sep sep s) as Hn.
  unfold Str.rsplit1. rewrite E in *.
  exists (Str.join sep (removelast (a :: b :: t))), (last (a :: b :: t) EmptyString).
  split; [reflexivity|]. split.
  - rewrite <- Hj at 1. apply join_removelast_last. discriminate.
  - rewrite Forall_forall in Hn. apply Hn. apply last_In. discriminate.
Qed.

(* ================================================================= *)
(** ** PriorityListParser, further *)

Lemma parse_priority_list_eq (priority_str : string) :
  parse_priority_list priority_str
  = strip_nonempty (Str.split comma priority_str).
Proof. unfold parse_priority_list. now destruct priority_str. Qed.

Lemma strip_keeps_absent (c : ascii) (s : string) :
  Str.mem c s = false -> Str.mem c (Str.strip s) = false.
Proof.
  intros H. destruct (StrFacts.strip_decomp s) as [l [r [Hs _]]].
  rewrite Hs, !mem_app in H.
  apply orb_false_iff in H as [_ H]. now apply orb_false_iff in H as [H _].
Qed.

Lemma strip_nonempty_no_sep (c : ascii) (items : list string) :
  Forall (fun item => Str.mem c item = false) items ->
  Forall (fun t => Str.mem c t = false) (strip_nonempty items).
Proof.
  induction 1 as [|item rest Hitem _ IH]; simpl; [constructor|].
  destruct (Str.nonempty (Str.strip item)); [|exact IH].
  constructor; [now apply strip_keeps_absent | exact IH].
Qed.

Lemma strip_nonempty_fixed (tokens : list string) :
  Forall (fun t => t <> EmptyString /\ Str.strip t = t) tokens ->
  strip_nonempty tokens = tokens.
Proof.
  induction 1 as [|t rest [Hne Ht] _ IH]; simpl; [reflexivity|].
  rewrite Ht, IH. destruct t; [contradiction | reflexivity].
Qed.

(** X1.  No token holds a comma, and writing the tokens back with commas and
    parsing again gives the same tokens: a parsed list is a normal form. *)
Theorem parse_priority_list_round_trip (priority_str : string) :
  Forall (fun t => Str.mem comma t = false) (parse_priority_list priority_str)
  /\ parse_priority_list (Str.join comma (parse_priority_list priority_str))
     = parse_priority_list priority_str.
Proof.
  assert (Hsep : Forall (fun t => Str.mem comma t = false)
                   (parse_priority_list priority_str)).
  { rewrite parse_priority_list_eq.
    apply strip_nonempty_no_sep, StrFacts.split_no_sep. }
  split; [exact Hsep|].
  destruct (parse_priority_list priority_str) as [|t rest] eqn:E; [reflexivity|].
  rewrite parse_priority_list_eq, split_join; [|discriminate | exact Hsep].
  apply strip_nonempty_fixed. rewrite <- E, parse_priority_list_eq.
  eapply Forall_impl; [|apply strip_nonempty_trimmed].
  intros a [Ha [Hb _]]. now split.
Qed.

(* ================================================================= *)
(** ** Admission of uploads: [allowed_file] *)

(** X8.  [allowed_file] never raises; it accepts exactly the names whose part
    after the last dot is, letter case apart, one of [png], [jpg], [jpeg];
    a name without a dot is rejected. *)
Theorem allowed_file_spec (filename : string) :
  (allowed_file filename = Some true \/ allowed_file filename = Some false)
  /\ (allowed_file filename = Some true <->
      exists root ext,
        filename = (root ++ "." ++ ext)%string
        /\ Str.mem "."%char ext = false
        /\ In (Str.lower ext) ALLOWED_EXTENSIONS)
  /\ (Str.mem "."%char filename = false -> allowed_file filename = Some false).
Proof.
  unfold allowed_file. rewrite contains_char.
  destruct (Str.mem "."%char filename) eqn:Hdot.
  - destruct (rsplit1_with_sep _ _ Hdot) as [root [ext [Hr [Hf Hext]]]].
    rewrite Hr. simpl nth_error. split; [|split].
    + destruct (existsb (String.eqb (Str.lower ext)) ALLOWED_EXTENSIONS); auto.
    + split.
      * intros H.
        assert (Hb : existsb (String.eqb (Str.lower ext)) ALLOWED_EXTENSIONS = true)
          by congruence.
        apply existsb_exists in Hb as [x [Hx Hx']].
        apply String.eqb_eq in Hx'. exists root, ext. subst x. auto.
      * intros [root' [ext' [Hf' [Hext' Hin]]]].
        assert (Hcut : Str.rsplit1 "."%char filename = [root'; ext'])
          by (rewrite Hf'; now apply rsplit1_cut).
        rewrite Hr in Hcut. injection Hcut as -> ->.
        f_equal. apply existsb_exists. exists (Str.lower ext').
        split; [exact Hin | apply String.eqb_refl].
    + discriminate.
  - split; [now right|]. split; [|reflexivity]. split; [discriminate|].
    intros [root [ext [Hf _]]]. rewrite Hf, mem_app in Hdot.
    apply orb_false_iff in Hdot as [_ Hdot]. simpl in Hdot. discriminate.
Qed.

Example allowed_file_examples :
  map allowed_file ["scan.PNG"; "a.b.Jpeg"; "photo.png.exe"; "png"; ".jpg"]
  = [Some true; Some true; Some false; Some false; Some true].
Proof. reflexivity. Qed.

(* ================================================================= *)
(** ** PrioritySorter, further *)

(** X2.  The equality test of [get_priority_index] is covered by the
    containment test: an item matches a name exactly when it occurs in it;
    in particular the empty item matches every name. *)
Theorem matches_is_containment (priority_item filename : string) :
  matches priority_item filename = Str.contains priority_item filename
  /\ (matches priority_item filename = true <->
      exists u t, filename = (u ++ priority_item ++ t)%string)
  /\ matches EmptyString filename = true.
Proof.
  assert (H : matches priority_item filename
              = Str.contains priority_item filename).
  { unfold matches, Str.eqb.
    destruct (String.eqb_spec priority_item filename) as [-> | _];
      [|reflexivity].
    now rewrite StrFacts.contains_self. }
  split; [exact H|]. split.
  - rewrite H. apply StrFacts.contains_spec.
  - unfold matches. destruct filename; reflexivity.
Qed.

Lemma filter_true (A : Type) (l : list A) : filter (fun _ => true) l = l.
Proof. induction l as [|x l IH]; simpl; [reflexivity | now rewrite IH]. Qed.

(** A list whose keys already come in non-decreasing order is left as it
    is. *)
Lemma stable_sort_id (A : Type) (key : A -> nat) (l : list A) :
  (forall a b, Before a b l -> key a <= key b) -> stable_sort key l = l.
Proof.
  intros H.
  transitivity (filter (fun _ => true) (stable_sort key l));
    [symmetry; apply filter_true|].
  transitivity (filter (fun _ : A => true) l); [|apply filter_true].
  apply stable_sort_filter. intros a b Hab _ _. now apply H.
Qed.

Lemma list_index_nth (files : list Path) (x : Path) (k : nat) :
  list_index files x = Some k -> nth_error files k = Some x.
Proof.
  revert k. induction files as [|y files IH]; intros k; simpl; [discriminate|].
  destruct (Path_eqb_spec y x) as [-> | _].
  - intros H. now injection H as <-.
  - destruct (list_index files x) as [j|]; [|discriminate].
    intros H. injection H as <-. now apply IH.
Qed.

(** X3.  The sort never raises; its output is a permutation of the input and
    the keys of its elements, computed on the input list, come in
    non-decreasing order. *)
Theorem sort_by_priority_keys_ordered
    (files : list Path) (priority_list : list string) :
  exists out,
    sort_by_priority files priority_list = Some out
    /\ Permutation out files
    /\ List.length out = List.length files
    /\ (forall p q a b,
          p < q -> nth_error out p = Some a -> nth_error out q = Some b ->
          exists ka kb,
            get_priority_index files priority_list a = Some ka
            /\ get_priority_index files priority_list b = Some kb
            /\ ka <= kb).
Proof.
  exists (stable_sort (rank files priority_list) files).
  split; [apply sort_by_priority_eq|].
  split; [apply stable_sort_Permutation|].
  split; [apply Permutation_length, stable_sort_Permutation|].
  intros p q a b Hpq Hp Hq.
  exists (rank files priority_list a), (rank files priority_list b).
  split; [|split].
  - apply get_priority_index_rank. eapply stable_sort_In, nth_error_In, Hp.
  - apply get_priority_index_rank. eapply stable_sort_In, nth_error_In, Hq.
  - exact (@stable_sort_nth_le _ (rank files priority_list) files p q a b Hpq Hp Hq).
Qed.

Lemma sort_by_priority_all_unmatched
    (files : list Path) (priority_list : list string) :
  NoDup files ->
  (forall f, In f files -> first_match priority_list (name f) = None) ->
  sort_by_priority files priority_list = Some files.
Proof.
  intros Hnd Hnone. rewrite sort_by_priority_eq. f_equal.
  apply stable_sort_id. intros a b Hab.
  pose proof (Hnone a (Before_In_l Hab)) as Ea.
  pose proof (Hnone b (Before_In_r Hab)) as Eb.
  apply Before_nth in Hab as [p [q [Hpq [Hp Hq]]]].
  rewrite (@rank_unmatched files priority_list a p Ea
             (@list_index_NoDup files a p Hnd Hp)).
  rewrite (@rank_unmatched files priority_list b q Eb
             (@list_index_NoDup files b q Hnd Hq)). lia.
Qed.

(** X6.  When no path occurs twice and no priority item matches any name (an
    empty priority list, for one), the sort returns its input unchanged. *)
Theorem sort_by_priority_unmatched_identity
    (files : list Path) (priority_list : list string) :
  NoDup files ->
  (forall f, In f files -> first_match priority_list (name f) = None) ->
  sort_by_priority files priority_list = Some files.
Proof. apply sort_by_priority_all_unmatched. Qed.

Lemma sort_by_priority_unmatched_identity_witness :
  sort_by_priority [mkPath "/tmp" "c.png"; mkPath "/tmp" "a.png"] ["x"]
  = Some [mkPath "/tmp" "c.png"; mkPath "/tmp" "a.png"].
Proof.
  apply (@sort_by_priority_unmatched_identity
           [mkPath "/tmp" "c.png"; mkPath "/tmp" "a.png"] ["x"]).
  - repeat constructor; simpl; intuition discriminate.
  - intros f [<- | [<- | []]]; reflexivity.
Defined.

(** X7.  Sorting what the sort returned changes nothing, duplicates or not. *)
Theorem sort_by_priority_idempotent
    (files : list Path) (priority_list : list string) :
  exists out,
    sort_by_priority files priority_list = Some out
    /\ sort_by_priority out priority_list = Some out.
Proof.
  set (r := rank files priority_list).
  exists (stable_sort r files).
  split; [apply sort_by_priority_eq|].
  rewrite sort_by_priority_eq. f_equal.
  apply stable_sort_id. intros a b Hab.
  pose proof (proj1 (stable_sort_In r a files) (Before_In_l Hab)) as Ia.
  pose proof (proj1 (stable_sort_In r b files) (Before_In_r Hab)) as Ib.
  apply Before_nth in Hab as [p [q [Hpq [Hp Hq]]]].
  pose proof (@stable_sort_nth_le _ r files p q a b Hpq Hp Hq) as Hab.
  destruct (list_index_first _ _ Hp) as [ka [Hka [Hkap [Hna _]]]].
  destruct (list_index_first _ _ Hq) as [kb [Hkb [Hkbq [Hnb Hfirstb]]]].
  destruct (list_index_In _ _ Ia) as [ia Hia].
  destruct (list_index_In _ _ Ib) as [ib Hib].
  unfold r in Hab.
  destruct (first_match priority_list (name a)) as [i|] eqn:Ea;
    destruct (first_match priority_list (name b)) as [j|] eqn:Eb.
  - rewrite (rank_matched files _ _ Ea), (rank_matched files _ _ Eb) in Hab.
    now rewrite (rank_matched _ _ _ Ea), (rank_matched _ _ _ Eb).
  - rewrite (rank_matched _ _ _ Ea), (rank_unmatched _ _ _ Eb Hkb).
    pose proof (first_match_lt_length _ _ Ea). lia.
  - rewrite (rank_unmatched _ _ _ Ea Hia), (rank_matched files _ _ Eb) in Hab.
    pose proof (first_match_lt_length _ _ Eb). lia.
  - rewrite (rank_unmatched _ _ _ Ea Hka), (rank_unmatched _ _ _ Eb Hkb).
    apply Nat.add_le_mono_l.
    destruct (le_lt_dec ka kb) as [Hle | Hlt]; [exact Hle|]. exfalso.
    pose proof (@stable_sort_nth_le _ r files kb ka b a Hlt Hnb Hna) as Hba.
    unfold r in Hba.
    rewrite (rank_unmatched _ _ _ Ea Hia), (rank_unmatched _ _ _ Eb Hib) in Hab, Hba.
    assert (ia = ib) by lia. subst ib.
    apply list_index_nth in Hia, Hib. rewrite Hia in Hib. injection Hib as ->.
    rewrite Hka in Hkb. injection Hkb as ->. lia.
Qed.

(** A use of the stability of the unmatched files: three distinct files,
    the one that matches moved to the front, the other two in input
    order. *)
Lemma sort_by_priority_stable_unmatched_witness :
  exists out,
    sort_by_priority
      [mkPath "/tmp" "c.png"; mkPath "/tmp" "a.png"; mkPath "/tmp" "b.png"]
      ["a"] = Some out
    /\ filter (unmatched ["a"]) out
       = filter (unmatched ["a"])
           [mkPath "/tmp" "c.png"; mkPath "/tmp" "a.png"; mkPath "/tmp" "b.png"].
Proof.
  apply (@sort_by_priority_stable_unmatched
           [mkPath "/tmp" "c.png"; mkPath "/tmp" "a.png"; mkPath "/tmp" "b.png"]
           ["a"]).
  repeat constructor; simpl; intuition discriminate.
Defined.

(* ================================================================= *)
(** ** The final order of [generate_pdf] *)

Lemma final_order_eq (image_paths : list Path) (priority_str : string) :
  final_order image_paths priority_str
  = Some (stable_sort
            (rank (filter (fun f => has_semicolon f) image_paths)
               (parse_priority_list priority_str))
            (filter (fun f => has_semicolon f) image_paths)
          ++ stable_sort
               (rank (filter (fun f => negb (has_semicolon f)) image_paths)
                  (parse_priority_list priority_str))
               (filter (fun f => negb (has_semicolon f)) image_paths)).
Proof.
  unfold final_order, split_by_semicolon. now rewrite !sort_by_priority_eq.
Qed.

(** X9.  Grouping, sorting and concatenating never raises, and every uploaded
    path comes out exactly as often as it went in. *)
Theorem final_order_permutation (image_paths : list Path) (priority_str : string) :
  exists out,
    final_order image_paths priority_str = Some out
    /\ Permutation out image_paths
    /\ List.length out = List.length image_paths.
Proof.
  eexists. split; [apply final_order_eq|].
  assert (HP : Permutation
                 (stable_sort
                    (rank (filter (fun f => has_semicolon f) image_paths)
                       (parse_priority_list priority_str))
                    (filter (fun f => has_semicolon f) image_paths)
                  ++ stable_sort
                       (rank (filter (fun f => negb (has_semicolon f)) image_paths)
                          (parse_priority_list priority_str))
                       (filter (fun f => negb (has_semicolon f)) image_paths))
                 image_paths).
  { rewrite !stable_sort_Permutation. apply filter_partition_Permutation. }
  split; [exact HP | now apply Permutation_length].
Qed.




Example final_order_scenario :
  final_order [mkPath "/tmp" "x2.png"; mkPath "/tmp" "x;1.png"] "x2"
  = Some [mkPath "/tmp" "x;1.png"; mkPath "/tmp" "x2.png"].
Proof. reflexivity. Qed.

(* ================================================================= *)
(** ** PageLayoutEngine, further *)

Local Open Scope Q_scope.

Lemma py_int_inject (x : Q) (n : Z) : x == inject_Z n -> py_int x = n.
Proof.
  destruct x as [m d]. unfold Qeq, py_int. simpl. intros H.
  rewrite Z.mul_1_r in H. subst m. apply Z.quot_mul. discriminate.
Qed.

Lemma ratio_ge_1 (n : Z) (a : Q) :
  (0 < n)%Z -> inject_Z n <= a -> 1 <= a / inject_Z n.
Proof.
  intros Hn H. apply inject_Z_pos in Hn.
  apply Qle_shift_div_l; [exact Hn|]. now rewrite Qmult_1_l.
Qed.

(** X12.  The division by the image's width and height raises exactly for a zero
    dimension, and an asset whose image has one is skipped with that
    exception. *)
Theorem layout_zero_dimension :
  (forall page_width page_height iw ih,
      layout page_width page_height iw ih = None <-> iw = 0%Z \/ ih = 0%Z)
  /\ (forall env page_width page_height img_path img,
        image_open env img_path = Some img ->
        img_width img = 0%Z \/ img_height img = 0%Z ->
        prepare env page_width page_height img_path = Raised ZeroDivisionError
        /\ renders env page_width page_height img_path = false).
Proof.
  assert (H : forall page_width page_height iw ih,
             layout page_width page_height iw ih = None <-> iw = 0%Z \/ ih = 0%Z).
  { intros pw ph iw ih. unfold layout, py_div.
    destruct (Z.eqb_spec iw 0) as [Ew | Ew].
    - split; auto.
    - destruct (Z.eqb_spec ih 0) as [Eh | Eh].
      + split; auto.
      + split; [discriminate | intros [? | ?]; contradiction]. }
  split; [exact H|].
  intros env pw ph p img Hopen Hzero.
  assert (Hl : layout pw ph (img_width (to_rgb img)) (img_height (to_rgb img)) = None).
  { apply H. destruct img as [[] w h]; exact Hzero. }
  unfold renders, prepare. rewrite Hopen. cbv zeta. rewrite Hl. now split.
Qed.

(** X14.  An image that fits the area left by the margins is drawn at its pixel
    size, one point per pixel, and is not resampled: the targets are twice
    its dimensions. *)
Theorem layout_small_image_untouched (page_width page_height : Q) (iw ih : Z) :
  (0 < iw)%Z -> (0 < ih)%Z ->
  inject_Z iw <= page_width - 100 ->
  inject_Z ih <= page_height - 150 ->
  exists l,
    layout page_width page_height iw ih = Some l
    /\ scale_ratio l == 1
    /\ scaled_width l == inject_Z iw
    /\ scaled_height l == inject_Z ih
    /\ target_pixel_width l = (2 * iw)%Z
    /\ target_pixel_height l = (2 * ih)%Z
    /\ resize_needed l = false.
Proof.
  intros Hw Hh Fw Fh.
  destruct (layout_defined page_width page_height Hw Hh)
    as [l [Hl [Hs [Hsw [Hsh [Htw [Hth Hr]]]]]]].
  exists l. split; [exact Hl|].
  assert (S1 : scale_ratio l == 1).
  { pose proof (ratio_ge_1 Hw Fw) as Ra. pose proof (ratio_ge_1 Hh Fh) as Rb.
    destruct (py_min3_le ((page_width - 100) / inject_Z iw)
                ((page_height - 150) / inject_Z ih) 1) as [_ [_ Hc]].
    rewrite Hs. apply Qle_antisym; [exact Hc|].
    destruct (py_min3_cases ((page_width - 100) / inject_Z iw)
                ((page_height - 150) / inject_Z ih) 1) as [-> | [-> | ->]];
      [exact Ra | exact Rb | apply Qle_refl]. }
  assert (Sw : scaled_width l == inject_Z iw)
    by (rewrite Hsw, S1; ring).
  assert (Sh : scaled_height l == inject_Z ih)
    by (rewrite Hsh, S1; ring).
  assert (Tw : target_pixel_width l = (2 * iw)%Z).
  { rewrite Htw. apply py_int_inject. rewrite Sw, inject_Z_mult. ring. }
  assert (Th : target_pixel_height l = (2 * ih)%Z).
  { rewrite Hth. apply py_int_inject. rewrite Sh, inject_Z_mult. ring. }
  repeat split; try assumption.
  rewrite Hr, Tw, Th. apply orb_false_iff. split; apply Z.ltb_ge; lia.
Qed.

Lemma layout_small_image_untouched_witness :
  exists l,
    layout 612 792 100 50 = Some l
    /\ scale_ratio l == 1
    /\ scaled_width l == inject_Z 100
    /\ scaled_height l == inject_Z 50
    /\ target_pixel_width l = (2 * 100)%Z
    /\ target_pixel_height l = (2 * 50)%Z
    /\ resize_needed l = false.
Proof.
  apply (@layout_small_image_untouched 612 792 100 50);
    try reflexivity; unfold Qle; simpl; lia.
Defined.

Local Close Scope Q_scope.

(* ================================================================= *)
(** ** DocumentComposer, further *)

Section ComposerMore.
Variable env : Env.
Variable output_path : Path.
Variables page_width page_height : Q.

(** The loop prints one line per asset that renders, in order, and on a
    batch whose assets all render it closes exactly their pages. *)
Lemma process_images_output (image_files : list Path) (s : State) :
  exists s',
    process_images env page_width page_height image_files s = (s', Returned tt)
    /\ stdout s'
       = stdout s
         ++ map added_line
              (filter (renders env page_width page_height) image_files)
    /\ (Forall (fun p => renders env page_width page_height p = true) image_files ->
        code s = [] ->
        code s' = []
        /\ pages s'
           = pages s ++ map (clean_page env page_width page_height) image_files).
Proof.
  revert s. induction image_files as [|p rest IH]; intros s.
  - exists s. simpl. rewrite !app_nil_r. auto.
  - simpl process_images. unfold bind. rewrite process_image_run.
    unfold renders, clean_page. simpl filter. simpl map. unfold renders.
    destruct (prepare env page_width page_height p) as [[img l]|e] eqn:E.
    + match goal with |- context [process_images _ _ _ rest ?s1] =>
        destruct (IH s1) as [s' [Hs' [Hout Hall]]] end.
      exists s'. split; [exact Hs'|]. split.
      * rewrite Hout. simpl. now rewrite <- app_assoc.
      * intros HF Hc. inversion HF as [|? ? _ HF']; subst.
        destruct (Hall HF' eq_refl) as [Hc' Hp']. split; [exact Hc'|].
        rewrite Hp'. simpl. rewrite Hc, <- app_assoc. reflexivity.
    + match goal with |- context [process_images _ _ _ rest ?s1] =>
        destruct (IH s1) as [s' [Hs' [Hout Hall]]] end.
      exists s'. split; [exact Hs'|]. split.
      * rewrite Hout. reflexivity.
      * intros HF. inversion HF as [|? ? Hp _]; subst.
        unfold renders in Hp. rewrite E in Hp. discriminate.
Qed.

Lemma create_pdf_with_images_unwritable (image_files : list Path) :
  image_files <> [] ->
  output_writable env output_path = false ->
  document (create_pdf_with_images env output_path page_width page_height
              image_files) = None
  /\ raised (create_pdf_with_images env output_path page_width page_height
               image_files) = Some SaveError
  /\ printed (create_pdf_with_images env output_path page_width page_height
                image_files)
     = map added_line (filter (renders env page_width page_height) image_files).
Proof.
  intros Hne Hw.
  destruct (process_images_output image_files new_canvas) as [s [Hs [Hout _]]].
  unfold create_pdf_with_images.
  destruct image_files as [|p rest]; [contradiction|].
  unfold bind. rewrite Hs. unfold save, flush_page, showPage. rewrite Hw.
  destruct (code s); simpl; now rewrite Hout.
Qed.

(** X16.  No exception of an asset reaches the caller: the only exception
    the composer lets through is that of a [save] that cannot write the
    output file.  With an empty list nothing is saved or raised.  With a
    non-empty list and an output that can be written, a document is saved
    with one page per asset that renders and one page more when the last
    asset of the batch fails; with an output that cannot be written the
    exception of [save] is raised after all assets were processed, and
    neither a document nor the closing line is produced. *)
Theorem create_pdf_with_images_outcome (image_files : list Path) :
  (raised (create_pdf_with_images env output_path page_width page_height
             image_files) = None
   \/ raised (create_pdf_with_images env output_path page_width page_height
                image_files) = Some SaveError)
  /\ (image_files = [] ->
      document (create_pdf_with_images env output_path page_width page_height
                  image_files) = None
      /\ raised (create_pdf_with_images env output_path page_width page_height
                   image_files) = None)
  /\ (image_files <> [] -> output_writable env output_path = true ->
      exists d,
        document (create_pdf_with_images env output_path page_width page_height
                    image_files) = Some d
        /\ raised (create_pdf_with_images env output_path page_width
                     page_height image_files) = None
        /\ List.length d
           = count_rendered env page_width page_height image_files
             + (if last_renders env page_width page_height image_files
                then 0 else 1))
  /\ (image_files <> [] -> output_writable env output_path = false ->
      document (create_pdf_with_images env output_path page_width page_height
                  image_files) = None
      /\ raised (create_pdf_with_images env output_path page_width page_height
                   image_files) = Some SaveError
      /\ printed (create_pdf_with_images env output_path page_width page_height
                    image_files)
         = map added_line
             (filter (renders env page_width page_height) image_files)).
Proof.
  assert (Hsaved :
            image_files <> [] -> output_writable env output_path = true ->
            exists d,
              document (create_pdf_with_images env output_path page_width
                          page_height image_files) = Some d
              /\ raised (create_pdf_with_images env output_path page_width
                           page_height image_files) = None
              /\ List.length d
                 = count_rendered env page_width page_height image_files
                   + (if last_renders env page_width page_height image_files
                      then 0 else 1)).
  { intros Hne Hw.
    destruct (@create_pdf_with_images_page_count env output_path page_width
                page_height image_files Hne Hw) as [d [Hd [Hr [Hlen _]]]].
    exists d. auto. }
  split; [|split; [|split]].
  - destruct image_files as [|p rest]; [now left|].
    destruct (output_writable env output_path) eqn:Hw.
    + destruct (Hsaved ltac:(discriminate) eq_refl) as [d [_ [Hr _]]]. now left.
    + right. now apply create_pdf_with_images_unwritable.
  - intros ->. now split.
  - exact Hsaved.
  - apply create_pdf_with_images_unwritable.
Qed.


Lemma clean_pages_shape (image_files : list Path) :
  Forall (fun p => renders env page_width page_height p = true) image_files ->
  Forall2 (fun p page =>
             exists img x y w h,
               page = heading page_width page_height p
                      ++ [DrawImage img x y w h])
    image_files (map (clean_page env page_width page_height) image_files).
Proof.
  induction 1 as [|p rest Hp _ IH]; simpl; constructor; [|exact IH].
  unfold renders in Hp. unfold clean_page.
  destruct (prepare env page_width page_height p) as [[img l]|e];
    [|discriminate].
  now exists img, (img_x l), (img_y l), (scaled_width l), (scaled_height l).
Qed.

(** X18.  When every asset of a non-empty batch renders and the output
    file can be written, the saved document holds exactly one page per
    asset, in input order, each made of the heading of its asset followed
    by one image; nothing is raised and nothing is written to the standard
    error. *)
Theorem create_pdf_with_images_all_render (image_files : list Path) :
  image_files <> [] ->
  output_writable env output_path = true ->
  Forall (fun p => renders env page_width page_height p = true) image_files ->
  exists d,
    document (create_pdf_with_images env output_path page_width page_height
                image_files) = Some d
    /\ Forall2 (fun p page =>
                  exists img x y w h,
                    page = heading page_width page_height p
                           ++ [DrawImage img x y w h])
         image_files d
    /\ raised (create_pdf_with_images env output_path page_width page_height
                 image_files) = None
    /\ errors (create_pdf_with_images env output_path page_width page_height
                 image_files) = [].
Proof.
  intros Hne Hw Hall.
  destruct (process_images_output image_files new_canvas) as [s [Hs [_ Hpg]]].
  destruct (Hpg Hall eq_refl) as [Hc Hp].
  destruct (process_images_effect env page_width page_height image_files
              new_canvas) as [s2 [Hs2 [_ [_ He]]]].
  rewrite Hs in Hs2. injection Hs2 as <-.
  exists (map (clean_page env page_width page_height) image_files).
  unfold create_pdf_with_images.
  destruct image_files as [|p rest]; [contradiction|].
  unfold bind. rewrite Hs. unfold save, flush_page. rewrite Hc, Hw. simpl.
  split; [now rewrite Hp|].
  split; [exact (clean_pages_shape Hall)|].
  split; [reflexivity|].
  assert (Hnone : filter (fun q => negb (renders env page_width page_height q))
                    (p :: rest) = []).
  { clear -Hall. induction Hall as [|q l Hq _ IH]; simpl; [reflexivity|].
    now rewrite Hq. }
  rewrite Hnone in He. simpl in He.
  destruct (stderr s); [reflexivity | discriminate].
Qed.
End ComposerMore.


Lemma create_pdf_with_images_all_render_witness :
  exists d,
    document (create_pdf_with_images example_env (mkPath "/tmp" "out.pdf") 612 792
                [mkPath "/tmp" "good.png"; mkPath "/tmp" "my_photo.png"]) = Some d
    /\ Forall2 (fun p page =>
                  exists img x y w h,
                    page = heading 612 792 p ++ [DrawImage img x y w h])
         [mkPath "/tmp" "good.png"; mkPath "/tmp" "my_photo.png"] d
    /\ raised (create_pdf_with_images example_env (mkPath "/tmp" "out.pdf") 612 792
                 [mkPath "/tmp" "good.png"; mkPath "/tmp" "my_photo.png"]) = None
    /\ errors (create_pdf_with_images example_env (mkPath "/tmp" "out.pdf") 612 792
                 [mkPath "/tmp" "good.png"; mkPath "/tmp" "my_photo.png"]) = [].
Proof.
  apply (@create_pdf_with_images_all_render example_env (mkPath "/tmp" "out.pdf")
           612 792 [mkPath "/tmp" "good.png"; mkPath "/tmp" "my_photo.png"]).
  - discriminate.
  - reflexivity.
  - repeat constructor.
Defined.

(** A use of the page count with one failure: the asset that fails is
    followed by one that renders, and the document has two pages. *)
Lemma create_pdf_with_images_one_failure_witness :
  exists d,
    document (create_pdf_with_images example_env (mkPath "/tmp" "out.pdf") 612 792
                ([mkPath "/tmp" "good.png"] ++ mkPath "/tmp" "bad.png"
                 :: [mkPath "/tmp" "fine.png"])) = Some d
    /\ raised (create_pdf_with_images example_env (mkPath "/tmp" "out.pdf") 612 792
                 ([mkPath "/tmp" "good.png"] ++ mkPath "/tmp" "bad.png"
                  :: [mkPath "/tmp" "fine.png"])) = None
    /\ List.length d
       = List.length [mkPath "/tmp" "good.png"]
         + List.length [mkPath "/tmp" "fine.png"]
         + (match [mkPath "/tmp" "fine.png"] with [] => 1 | _ :: _ => 0 end).
Proof.
  apply (@create_pdf_with_images_one_failure example_env (mkPath "/tmp" "out.pdf")
           612 792 [mkPath "/tmp" "good.png"] [mkPath "/tmp" "fine.png"]
           (mkPath "/tmp" "bad.png")).
  - reflexivity.
  - repeat constructor.
  - repeat constructor.
  - reflexivity.
Defined.

(** *** The heading text *)

Lemma replace_removes (a b : ascii) (s : string) :
  a <> b -> Str.mem a (Str.replace a b s) = false.
Proof.
  intros Hab. induction s as [|c s IH]; simpl; [reflexivity|].
  rewrite IH, orb_false_r.
  destruct (Ascii.eqb_spec c a) as [-> | Hc].
  - apply Ascii.eqb_neq. congruence.
  - now apply Ascii.eqb_neq.
Qed.

Lemma replace_length (a b : ascii) (s : string) :
  String.length (Str.replace a b s) = String.length s.
Proof. induction s as [|c s IH]; simpl; [reflexivity | now rewrite IH]. Qed.

Lemma stem_cut (dir root ext : string) :
  root <> EmptyString -> ext <> EmptyString -> Str.mem "."%char ext = false ->
  stem (mkPath dir (root ++ String "."%char ext)) = root.
Proof.
  intros Hroot Hext Hdot. unfold stem. simpl name.
  rewrite split_app_sep, (split_without_sep _ _ Hdot).
  rewrite removelast_last, last_last, StrFacts.join_split, length_app.
  pose proof (StrFacts.split_not_nil "."%char root) as Hn.
  destruct (Str.split "."%char root) as [|x r]; [contradiction|].
  destruct root; [contradiction|]. destruct ext; [contradiction|].
  simpl. replace (List.length r + 1) with (S (List.length r)) by lia.
  reflexivity.
Qed.

(** X20.  The heading of a page shows the file name without its last extension
    and with every underscore turned into a space; a name without an
    extension is shown whole. *)
Theorem heading_text (page_width page_height : Q) (dir root ext : string) :
  root <> EmptyString -> ext <> EmptyString -> Str.mem "."%char ext = false ->
  In (DrawString 50 (page_height - 50)
        (Str.replace "_"%char " "%char root))
     (heading page_width page_height
        (mkPath dir (root ++ String "."%char ext)))
  /\ Str.mem "_"%char (Str.replace "_"%char " "%char root) = false
  /\ String.length (Str.replace "_"%char " "%char root) = String.length root
  /\ (Str.mem "."%char root = false ->
      In (DrawString 50 (page_height - 50)
            (Str.replace "_"%char " "%char root))
         (heading page_width page_height (mkPath dir root))).
Proof.
  intros Hroot Hext Hdot. split; [|split; [|split]].
  - unfold heading. rewrite (stem_cut dir Hroot Hext Hdot). simpl. auto 6.
  - apply replace_removes. discriminate.
  - apply replace_length.
  - intros Hnodot. unfold heading, stem. simpl name.
    rewrite (split_without_sep _ _ Hnodot). simpl. auto 6.
Qed.

Lemma heading_text_witness :
  In (DrawString 50 (792 - 50) (Str.replace "_"%char " "%char "front_page"))
     (heading 612 792 (mkPath "/tmp" ("front_page" ++ String "."%char "png")))
  /\ Str.mem "_"%char (Str.replace "_"%char " "%char "front_page") = false
  /\ String.length (Str.replace "_"%char " "%char "front_page")
     = String.length "front_page"
  /\ (Str.mem "."%char "front_page" = false ->
      In (DrawString 50 (792 - 50) (Str.replace "_"%char " "%char "front_page"))
         (heading 612 792 (mkPath "/tmp" "front_page"))).
Proof.
  apply (@heading_text 612 792 "/tmp" "front_page" "png");
    [discriminate | discriminate | reflexivity].
Defined.
